(** * video-editor-server: admission queue, request validation, range
      streaming, text escaping and artifact eviction

    A shallow embedding of the route module with the job queue
    (the [enqueueJob] module, with [MAX_CONCURRENT_JOBS = 1]), of the
    sweep of the server entry point ([cleanupOldFiles]) and, where the two
    route modules differ, of the older route module as well.

    Conventions of the embedding:
    - JavaScript numbers that hold counters, byte offsets and millisecond
      timestamps are [Z]; they are exact in the source as long as they stay
      within the safe-integer range (below [2^53]).
    - Times in seconds are exact rationals ([Q]); [NaN] is the missing
      value of an [option].
    - ASCII strings (header values, file names, operation names) are
      [string]; the overlay text is a list of UTF-16 code units.
    - The file system, the media engine and the clock are inputs of the
      handlers: a handler is a function of the state it reads and returns
      the state it leaves. *)

From stdpp Require Import base numbers option list gmap strings.
From Stdlib Require Import ZArith Lia QArith Qminmax Lqa Ascii.

Local Open Scope Z_scope.

(** ** The job queue ([enqueueJob]) *)

Module Queue.

(** One call of [enqueueJob] creates one closure [run]; it is identified
    by the index of the call, so the order of the identifiers is the
    submission order. *)
Definition job := nat.

(** How the promise returned by [jobFn()] settles. *)
Inductive settlement := Fulfilled | Rejected.

(** [activeJobs] and [jobQueue] are the two variables of the module. The
    other fields only observe the execution: which [jobFn] promises are
    still pending, in which order [run] was entered, which results were
    handed to the callers, how many calls of [enqueueJob] were made, and
    every value that was ever stored in [activeJobs]. *)
Record state := mkState {
  activeJobs : Z;
  jobQueue : list job;
  pending : list job;
  started : list job;
  delivered : list (job * settlement);
  submitted : nat;
  counter_log : list Z
}.

Definition MAX_CONCURRENT_JOBS : Z := 1.

Definition init : state :=
  {| activeJobs := 0; jobQueue := []; pending := []; started := [];
     delivered := []; submitted := 0; counter_log := [0] |}.

(** [run]: [activeJobs++], then [jobFn()] is called and its promise is
    pending. *)
Definition run (j : job) (s : state) : state :=
  {| activeJobs := activeJobs s + 1;
     jobQueue := jobQueue s;
     pending := pending s ++ [j];
     started := started s ++ [j];
     delivered := delivered s;
     submitted := submitted s;
     counter_log := counter_log s ++ [activeJobs s + 1] |}.

(** [jobQueue.push(run)] *)
Definition push (j : job) (s : state) : state :=
  {| activeJobs := activeJobs s;
     jobQueue := jobQueue s ++ [j];
     pending := pending s;
     started := started s;
     delivered := delivered s;
     submitted := submitted s;
     counter_log := counter_log s |}.

(** [enqueueJob(jobFn)] with ceiling [N]: the body of the promise
    executor. *)
Definition enqueueJob (N : Z) (s : state) : state :=
  let j := submitted s in
  let s1 := {| activeJobs := activeJobs s; jobQueue := jobQueue s;
               pending := pending s; started := started s;
               delivered := delivered s; submitted := S (submitted s);
               counter_log := counter_log s |} in
  if activeJobs s1 <? N then run j s1 else push j s1.

(** The promise of job [j] leaves the pending ones ([None] when it is not
    among them). *)
Fixpoint take_out (j : job) (l : list job) : option (list job) :=
  match l with
  | [] => None
  | x :: l' =>
      if decide (x = j) then Some l'
      else match take_out j l' with
           | None => None
           | Some k => Some (x :: k)
           end
  end.

(** The [.then(resolve).catch(reject).finally(...)] chain of job [j], run
    when the promise of [jobFn()] settles with [o]: the caller gets the
    result, [activeJobs--], and if [jobQueue.length > 0] the entry
    returned by [jobQueue.shift()] is called. A promise that is not
    pending cannot settle. *)
Definition settle (j : job) (o : settlement) (s : state) : option state :=
  match take_out j (pending s) with
  | None => None
  | Some rest =>
      let s1 := {| activeJobs := activeJobs s - 1;
                   jobQueue := jobQueue s;
                   pending := rest;
                   started := started s;
                   delivered := delivered s ++ [(j, o)];
                   submitted := submitted s;
                   counter_log := counter_log s ++ [activeJobs s - 1] |} in
      match jobQueue s1 with
      | [] => Some s1
      | next :: waiting =>
          Some (run next
                  {| activeJobs := activeJobs s1; jobQueue := waiting;
                     pending := pending s1; started := started s1;
                     delivered := delivered s1; submitted := submitted s1;
                     counter_log := counter_log s1 |})
      end
  end.

(** What happens to the queue: a handler calls [enqueueJob], or the
    promise of a running job settles. *)
Inductive event := Submit | Settle (j : job) (o : settlement).

Definition step (N : Z) (s : state) (e : event) : option state :=
  match e with
  | Submit => Some (enqueueJob N s)
  | Settle j o => settle j o s
  end.

Fixpoint exec (N : Z) (s : state) (tr : list event) : option state :=
  match tr with
  | [] => Some s
  | e :: tr' =>
      match step N s e with
      | None => None
      | Some s' => exec N s' tr'
      end
  end.

Definition is_submit (e : event) : bool :=
  match e with Submit => true | Settle _ _ => false end.

(** The number [J] of submissions of a trace. *)
Definition submissions (tr : list event) : nat :=
  length (filter (λ e, is_submit e = true) tr).

(** Settle the oldest pending job with the result chosen by [outcome],
    again and again: the trace of a system whose running jobs all finish. *)
Fixpoint drain (outcome : job → settlement) (fuel : nat) (s : state)
  : list event :=
  match fuel with
  | O => []
  | S fuel' =>
      match pending s with
      | [] => []
      | j :: _ =>
          match settle j (outcome j) s with
          | None => []
          | Some s' => Settle j (outcome j) :: drain outcome fuel' s'
          end
      end
  end.

(** The number of settlements of a trace. *)
Definition settlements (tr : list event) : nat :=
  length (filter (λ e, is_submit e = false) tr).

(** What every turn of the event loop preserves, for ceiling [N]. *)
Record inv (N : Z) (s : state) : Prop := {
  inv_count : activeJobs s = Z.of_nat (length (pending s));
  inv_ceiling : activeJobs s ≤ N;
  inv_saturated : jobQueue s ≠ [] → activeJobs s = N;
  inv_order : started s ++ jobQueue s = seq 0 (submitted s);
  inv_account : started s ≡ₚ (delivered s).*1 ++ pending s;
  inv_log : Forall (λ v, 0 ≤ v ≤ N) (counter_log s)
}.

End Queue.

(** ** JavaScript values that the handlers inspect *)

Module Js.

(** A number holding seconds; [None] is [NaN]. *)
Definition number := option Q.

(** A field of a JSON body or of probed metadata, or a property of an
    object; [Object] is a function or an object, known by a name only. *)
Inductive value :=
  | Undefined
  | Number (x : number)
  | Text (s : string)
  | Object (name : string).

(** [ToBoolean] *)
Definition truthy (v : value) : bool :=
  match v with
  | Undefined => false
  | Number None => false
  | Number (Some q) => negb (Qeq_bool q 0)
  | Text s => negb (String.eqb s EmptyString)
  | Object _ => true
  end.

(** A field that is a string or absent: [!field] is false exactly for a
    non-empty string. *)
Definition truthy_string (s : option string) : bool :=
  match s with
  | None => false
  | Some s => negb (String.eqb s EmptyString)
  end.

(** [parseFloat(v)]. The grammar of decimal literals in text is the
    built-in's; it is the argument [parseFloatText]. *)
Definition parseFloat (parseFloatText : string → number) (v : value) : number :=
  match v with
  | Undefined => None
  | Number x => x
  | Text s => parseFloatText s
  | Object _ => None
  end.

(** [x || 0] on a number: [NaN] and [0] are falsy. *)
Definition or_zero (x : number) : Q :=
  match x with
  | None => 0%Q
  | Some q => if Qeq_bool q 0 then 0%Q else q
  end.

(** [x - y] *)
Definition minus (x y : number) : number :=
  match x, y with
  | Some a, Some b => Some (a - b)%Q
  | _, _ => None
  end.

(** [Math.max(x, y)] *)
Definition Math_max (x y : number) : number :=
  match x, y with
  | Some a, Some b => Some (Qmax a b)
  | _, _ => None
  end.

(** A template literal: literal text with interpolated numbers, values
    and UTF-16 text. *)
Inductive piece :=
  | Lit (s : string)
  | Num (x : number)
  | Val (v : value)
  | Units (u : list N).

Definition template := list piece.

End Js.

(** ** The two artifact directories *)

Module Fs.

(** What [fs.statSync] reports about an entry, and whether [statSync] or
    [unlinkSync] throw on it (permissions, a busy file). *)
Record node := mkNode {
  isFile : bool;
  mtimeMs : Z;
  size : Z;
  stat_throws : bool;
  unlink_throws : bool
}.

(** A directory maps the names [readdirSync] lists to their entries; a
    directory that cannot be read is [None]. *)
Definition directory := option (gmap string node).

Inductive dir_name := UPLOADS_DIR | PROCESSED_DIR.

Record t := mkFs {
  uploads : directory;
  processed : directory
}.

Definition get (d : dir_name) (fs : t) : directory :=
  match d with
  | UPLOADS_DIR => uploads fs
  | PROCESSED_DIR => processed fs
  end.

Definition set (d : dir_name) (c : directory) (fs : t) : t :=
  match d with
  | UPLOADS_DIR => {| uploads := c; processed := processed fs |}
  | PROCESSED_DIR => {| uploads := uploads fs; processed := c |}
  end.

(** [fs.existsSync(path.join(dir, name))] *)
Definition existsSync (c : directory) (name : string) : bool :=
  match c with
  | None => false
  | Some m => bool_decide (is_Some (m !! name))
  end.

(** [fs.readdirSync(directory)]; [None] when it throws. *)
Definition readdirSync (c : directory) : option (list string) :=
  match c with
  | None => None
  | Some m => Some (map_to_list m).*1
  end.

(** [fs.statSync(filePath)]; [None] when it throws. *)
Definition statSync (m : gmap string node) (name : string) : option node :=
  match m !! name with
  | None => None
  | Some nd => if stat_throws nd then None else Some nd
  end.

(** [fs.unlinkSync(filePath)]; [None] when it throws. *)
Definition unlinkSync (m : gmap string node) (name : string)
  : option (gmap string node) :=
  match m !! name with
  | None => None
  | Some nd =>
      if unlink_throws nd || negb (isFile nd) then None
      else Some (delete name m)
  end.

End Fs.

(** ** The eviction sweep of the server entry point *)

Module Sweep.

Definition CLEANUP_INTERVAL_MS : Z := 5 * 60 * 1000.
Definition MAX_FILE_AGE_MS : Z := 15 * 60 * 1000.

(** The body of the [for] loop of [cleanupOldFiles] for one listed name:
    the inner [try] with its empty [catch]. The pair is the directory and
    the counter [cleaned]. *)
Definition cleanup_file (now : Z) (acc : gmap string Fs.node * Z)
    (file : string) : gmap string Fs.node * Z :=
  let '(m, cleaned) := acc in
  match Fs.statSync m file with
  | None => (m, cleaned)
  | Some stat =>
      if Fs.isFile stat && (now - Fs.mtimeMs stat >? MAX_FILE_AGE_MS) then
        match Fs.unlinkSync m file with
        | None => (m, cleaned)
        | Some m' => (m', cleaned + 1)
        end
      else (m, cleaned)
  end.

(** [cleanupOldFiles(directory)] when [Date.now()] is [now]; the outer
    [catch] leaves an unreadable directory alone. The second component is
    the final value of [cleaned]. *)
Definition cleanupOldFiles (now : Z) (c : Fs.directory) : Fs.directory * Z :=
  match c, Fs.readdirSync c with
  | Some m, Some files =>
      let '(m', cleaned) := fold_left (cleanup_file now) files (m, 0) in
      (Some m', cleaned)
  | _, _ => (c, 0)
  end.

(** One firing of the timer: the uploads directory at clock [now_u], then
    the processed directory at clock [now_p]. *)
Definition sweep (now_u now_p : Z) (fs : Fs.t) : Fs.t :=
  let fs1 := Fs.set Fs.UPLOADS_DIR
               (cleanupOldFiles now_u (Fs.get Fs.UPLOADS_DIR fs)).1 fs in
  Fs.set Fs.PROCESSED_DIR
    (cleanupOldFiles now_p (Fs.get Fs.PROCESSED_DIR fs1)).1 fs1.

(** An entry is due at clock [now]: a regular file whose age is above the
    retention window. *)
Definition expired (now : Z) (nd : Fs.node) : bool :=
  Fs.isFile nd && (now - Fs.mtimeMs nd >? MAX_FILE_AGE_MS).

(** A due entry on which neither [statSync] nor [unlinkSync] throws. *)
Definition removable (now : Z) (nd : Fs.node) : bool :=
  expired now nd && negb (Fs.stat_throws nd) && negb (Fs.unlink_throws nd).

(** What is left of an entry after the sweep of its directory. *)
Definition swept (now : Z) (nd : Fs.node) : option Fs.node :=
  if removable now nd then None else Some nd.

(** The clock value used for a directory in one firing of the timer. *)
Definition clock (now_u now_p : Z) (d : Fs.dir_name) : Z :=
  match d with
  | Fs.UPLOADS_DIR => now_u
  | Fs.PROCESSED_DIR => now_p
  end.

End Sweep.

(** ** Range streaming ([GET /video/:filename], [GET /processed-video/:filename]) *)

Module Stream.

Import Stdlib.Strings.String.
Local Open Scope string_scope.
Local Open Scope Z_scope.

(** A byte offset or length; [None] is [NaN]. *)
Definition num := option Z.

Definition code (c : ascii) : Z := Z.of_N (N_of_ascii c).

(** White space that [parseInt] skips (the ASCII part of it). *)
Definition is_whitespace (c : ascii) : bool :=
  let n := code c in
  (n =? 32) || ((9 <=? n) && (n <=? 13)).

Fixpoint skip_whitespace (s : string) : string :=
  match s with
  | String c s' => if is_whitespace c then skip_whitespace s' else s
  | EmptyString => s
  end.

Definition digit_of (c : ascii) : option Z :=
  let n := code c in
  if (48 <=? n) && (n <=? 57) then Some (n - 48) else None.

(** The value of the longest prefix of decimal digits, continuing [acc]. *)
Fixpoint read_digits (s : string) (acc : Z) : Z :=
  match s with
  | String c s' =>
      match digit_of c with
      | Some d => read_digits s' (10 * acc + d)
      | None => acc
      end
  | EmptyString => acc
  end.

(** All the characters of [s] are decimal digits. *)
Fixpoint digits_only (s : string) : bool :=
  match s with
  | String c s' => bool_decide (is_Some (digit_of c)) && digits_only s'
  | EmptyString => true
  end.

Definition starts_with_digit (s : string) : bool :=
  match s with
  | String c _ => bool_decide (is_Some (digit_of c))
  | EmptyString => false
  end.

(** [parseInt(s, 10)] *)
Definition parseInt (s : string) : num :=
  let s1 := skip_whitespace s in
  let '(sign, s2) :=
    match s1 with
    | String "-" r => (-1, r)
    | String "+" r => (1, r)
    | _ => (1, s1)
    end in
  if starts_with_digit s2 then Some (sign * read_digits s2 0) else None.

(** [s.replace(/pat/, repl)] for a pattern without metacharacters: the
    first occurrence only. *)
Fixpoint replace_first (pat repl s : string) : string :=
  if String.prefix pat s then
    repl +:+ String.substring (String.length pat)
                              (String.length s - String.length pat) s
  else
    match s with
    | String c s' => String c (replace_first pat repl s')
    | EmptyString => EmptyString
    end.

(** [s.split(sep)] for a one-character separator. *)
Fixpoint split (sep : ascii) (s : string) : list string :=
  match s with
  | EmptyString => [EmptyString]
  | String c s' =>
      if Ascii.eqb c sep then EmptyString :: split sep s'
      else match split sep s' with
           | h :: t => String c h :: t
           | [] => [String c EmptyString]
           end
  end.

Definition digit_char (d : Z) : ascii := ascii_of_N (Z.to_N (48 + d)).

Fixpoint render_digits (fuel : nat) (n : Z) (acc : string) : string :=
  match fuel with
  | O => acc
  | S fuel' =>
      let acc' := String (digit_char (n mod 10)) acc in
      if n / 10 =? 0 then acc' else render_digits fuel' (n / 10) acc'
  end.

(** The decimal digits of [n ≥ 0]; a number has at most [log2 n + 1]
    of them. *)
Definition render_nat (n : Z) : string :=
  render_digits (S (Z.to_nat (Z.log2 n))) n EmptyString.

(** A number interpolated in a template literal ([Number::toString] on
    an integer). *)
Definition render (x : num) : string :=
  match x with
  | None => "NaN"
  | Some z => if z <? 0 then "-" +:+ render_nat (- z) else render_nat z
  end.

Definition minus (x y : num) : num :=
  match x, y with Some a, Some b => Some (a - b) | _, _ => None end.

Definition plus (x y : num) : num :=
  match x, y with Some a, Some b => Some (a + b) | _, _ => None end.

Inductive header := HText (s : string) | HNumber (x : num).

(** What the handler sends: a JSON error, or [writeHead] followed by the
    piped read stream with its [start]/[end] options; [Thrown] when
    [statSync] or [createReadStream] throws before anything is sent: the
    error goes to the error middleware at the end of the router. *)
Inductive reply :=
  | Json (status : Z) (error : string)
  | Piped (status : Z) (headers : list (string * header))
          (window : option (num * num))
  | Thrown.

Definition MAX_SAFE_INTEGER : Z := 2 ^ 53 - 1.

(** An offset that [fs.createReadStream] accepts as [start] or [end]: an
    integer from 0 to [Number.MAX_SAFE_INTEGER]; [NaN] is none. *)
Definition valid_offset (x : num) : bool :=
  match x with
  | Some z => (0 <=? z) && (z <=? MAX_SAFE_INTEGER)
  | None => false
  end.

(** [fs.createReadStream(filePath, { start, end })] checks its options
    when it is called, before the file is opened: it throws
    [ERR_OUT_OF_RANGE] when [start] or [end] is not such an offset or
    when [start > end]. *)
Definition createReadStream_throws (start end_ : num) : bool :=
  negb (valid_offset start) || negb (valid_offset end_)
  || match start, end_ with
     | Some a, Some b => b <? a
     | _, _ => false
     end.

(** The body shared by the two streaming handlers; [c] is the directory
    the handler serves and [range] is [req.headers.range]. The read
    stream is created before [res.writeHead(206, ...)]. *)
Definition serve (c : Fs.directory) (filename : string)
    (range : option string) : reply :=
  if negb (Fs.existsSync c filename) then Json 404 "File not found"
  else
    match c with
    | None => Thrown
    | Some m =>
        match Fs.statSync m filename with
        | None => Thrown
        | Some stat =>
            let fileSize := Fs.size stat in
            if Js.truthy_string range then
              let parts :=
                split "-" (replace_first "bytes=" EmptyString
                             (default EmptyString range)) in
              let start := match parts !! 0%nat with
                           | Some p => parseInt p
                           | None => None
                           end in
              let end_ := match parts !! 1%nat with
                          | Some p =>
                              if negb (String.eqb p EmptyString)
                              then parseInt p
                              else Some (fileSize - 1)
                          | None => Some (fileSize - 1)
                          end in
              let chunksize := plus (minus end_ start) (Some 1) in
              if createReadStream_throws start end_ then Thrown
              else
                Piped 206
                  [("Content-Range",
                    HText ("bytes " +:+ render start +:+ "-" +:+ render end_
                           +:+ "/" +:+ render (Some fileSize)));
                   ("Accept-Ranges", HText "bytes");
                   ("Content-Length", HNumber chunksize);
                   ("Content-Type", HText "video/mp4")]
                  (Some (start, end_))
            else
              Piped 200
                [("Content-Length", HNumber (Some fileSize));
                 ("Content-Type", HText "video/mp4")]
                None
        end
    end.

(** The value of [req.headers.range] for the range [a-b] and for the
    open range [a-]. *)
Definition range_header (a b : Z) : string :=
  "bytes=" +:+ render (Some a) +:+ "-" +:+ render (Some b).

Definition open_range_header (a : Z) : string :=
  "bytes=" +:+ render (Some a) +:+ "-".

(** The value of [req.headers.range] for the last [b] bytes. *)
Definition suffix_range_header (b : Z) : string :=
  "bytes=-" +:+ render (Some b).

(** The value of [Content-Range] for the slice [a-b] of [S] bytes. *)
Definition content_range (a b S : Z) : string :=
  "bytes " +:+ render (Some a) +:+ "-" +:+ render (Some b)
  +:+ "/" +:+ render (Some S).

Definition getVideo (fs : Fs.t) := serve (Fs.uploads fs).
Definition getProcessedVideo (fs : Fs.t) := serve (Fs.processed fs).

(** The status of a reply; the error middleware of the router answers
    a thrown error with status 400. *)
Definition status_of (r : reply) : Z :=
  match r with
  | Json st _ => st
  | Piped st _ _ => st
  | Thrown => 400
  end.


End Stream.

(** ** The route module with the job queue *)

Module Routes.

Import Js.
Local Open Scope string_scope.
Local Open Scope Z_scope.

(** *** Replies and jobs *)

(** [res.status(st).json({error, details})] or
    [res.json({success: true, filename, message})]. *)
Inductive response :=
  | Failure (status : Z) (error : string) (details : option string)
  | Success (filename : string) (message : string).

Definition status_of (r : response) : Z :=
  match r with
  | Failure st _ _ => st
  | Success _ _ => 200
  end.

(** What a handler hands to the engine: the chain of calls on
    [ffmpeg(...)] up to [.run()]. *)
Record command := mkCommand {
  inputs : list string;
  inputOptions : list piece;
  switches : list string;
  videoFilters : list template;
  audioFilters : list template;
  complexFilter : list template;
  outputOptions : list piece;
  output : string
}.

(** The function given to [enqueueJob]: the command, the reply of the
    [end] callback and the error text of the [error] callback. *)
Record jobFn := mkJob {
  cmd : command;
  on_end : response;
  on_error : string
}.

(** What a handler has done when it returns: the reply it sent (none
    while its job is waiting or running), the queue it leaves, and the job
    it passed to [enqueueJob]. *)
Record outcome := mkOutcome {
  sent : option response;
  queue : Queue.state;
  enqueued : option jobFn
}.

(** [return res.status(st).json({error})] *)
Definition refuse (q : Queue.state) (st : Z) (error : string) : outcome :=
  {| sent := Some (Failure st error None); queue := q; enqueued := None |}.

(** [enqueueJob(() => new Promise(...))] as the last statement. *)
Definition submit (q : Queue.state) (j : jobFn) : outcome :=
  {| sent := None;
     queue := Queue.enqueueJob Queue.MAX_CONCURRENT_JOBS q;
     enqueued := Some j |}.

(** The engine finished or failed. *)
Inductive engine_event := End | Error (message : string).

(** The [end] and [error] callbacks of a job: both call [resolve()], the
    second one after [if (!res.headersSent) res.status(500).json(...)]. *)
Definition callbacks (j : jobFn) (headersSent : bool) (ev : engine_event)
  : option response * Queue.settlement :=
  match ev with
  | End => (Some (on_end j), Queue.Fulfilled)
  | Error message =>
      (if headersSent then None
       else Some (Failure 500 (on_error j) (Some message)),
       Queue.Fulfilled)
  end.

(** The engine is an input: run on a command it changes the files and
    reports [end] or [error]. *)
Definition engine := command → Fs.t → Fs.t * engine_event.

(** A job from [.run()] to [resolve()]: the files it leaves, the reply
    and the settlement of its promise. *)
Definition run_job (ffmpeg : engine) (j : jobFn) (headersSent : bool)
    (fs : Fs.t) : Fs.t * option response * Queue.settlement :=
  let '(fs', ev) := ffmpeg (cmd j) fs in
  let '(r, o) := callbacks j headersSent ev in
  (fs', r, o).

(** [safeDelete(filePath)] for a path in one of the two directories. No
    handler calls it. *)
Definition safeDelete (d : Fs.dir_name) (name : string) (fs : Fs.t) : Fs.t :=
  match Fs.get d fs with
  | None => fs
  | Some m =>
      if Fs.existsSync (Some m) name then
        match Fs.unlinkSync m name with
        | None => fs
        | Some m' => Fs.set d (Some m') fs
        end
      else fs
  end.

(** *** Output options *)

Definition FFMPEG_OUTPUT_OPTS : list piece :=
  Lit <$> ["-c:v"; "libx264"; "-c:a"; "aac"; "-preset"; "ultrafast";
           "-crf"; "35"; "-threads"; "1"; "-maxrate"; "500k";
           "-bufsize"; "250k"; "-vf"; "scale=480:-2";
           "-movflags"; "+faststart"; "-ac"; "1"; "-ar"; "22050"].

Definition FFMPEG_VIDEO_ONLY_OPTS : list piece :=
  Lit <$> ["-c:v"; "libx264"; "-preset"; "ultrafast"; "-crf"; "35";
           "-threads"; "1"; "-maxrate"; "500k"; "-bufsize"; "250k";
           "-vf"; "scale=480:-2"; "-movflags"; "+faststart"].

Definition FFMPEG_NO_SCALE_OPTS : list piece :=
  Lit <$> ["-c:v"; "libx264"; "-c:a"; "aac"; "-preset"; "ultrafast";
           "-crf"; "35"; "-threads"; "1"; "-maxrate"; "500k";
           "-bufsize"; "250k"; "-movflags"; "+faststart";
           "-ac"; "1"; "-ar"; "22050"].

(** *** [POST /trim] *)

Record trim_body := mkTrim {
  trim_filename : option string;
  startTime : value;
  endTime : value
}.

(** [const duration = end > start ? end - start : 0] *)
Definition trim_duration (start end_ : Q) : Q :=
  if Qlt_le_dec start end_ then (end_ - start)%Q else 0%Q.

(** [outOpts]: the [-t] option is pushed only [if (duration > 0)]. *)
Definition trim_outOpts (duration : Q) : list piece :=
  FFMPEG_OUTPUT_OPTS ++
  (if Qlt_le_dec 0 duration then [Lit "-t"; Num (Some duration)] else []).

(** An option named [name] is among the output options. *)
Definition has_option (name : string) (opts : list piece) : bool :=
  existsb (λ p, match p with Lit s => String.eqb s name | _ => false end) opts.

Definition postTrim (parseFloatText : string → number) (fs : Fs.t)
    (uuid : string) (q : Queue.state) (body : trim_body) : outcome :=
  if negb (truthy_string (trim_filename body)) then
    refuse q 400 "filename required"
  else
    let filename := default EmptyString (trim_filename body) in
    let outputFilename := "trimmed_" +:+ uuid +:+ ".mp4" in
    if negb (Fs.existsSync (Fs.uploads fs) filename) then
      refuse q 404 "Input file not found"
    else
      let start := or_zero (parseFloat parseFloatText (startTime body)) in
      let end_ := or_zero (parseFloat parseFloatText (endTime body)) in
      let duration := trim_duration start end_ in
      submit q
        {| cmd := {| inputs := [filename];
                     inputOptions := [Lit "-ss"; Num (Some start)];
                     switches := [];
                     videoFilters := []; audioFilters := [];
                     complexFilter := [];
                     outputOptions := trim_outOpts duration;
                     output := outputFilename |};
           on_end := Success outputFilename "Video trimmed successfully";
           on_error := "Failed to trim video" |}.

(** *** [POST /filter] *)

Record filter_body := mkFilter {
  filter_filename : option string;
  filter : option string
}.

(** The own properties of the object literal [filterMap]. *)
Definition filterMap : gmap string string :=
  list_to_map
    [("grayscale", "colorchannelmixer=.3:.4:.3:0:.3:.4:.3:0:.3:.4:.3");
     ("sepia", "colorchannelmixer=.393:.769:.189:0:.349:.686:.168:0:.272:.534:.131");
     ("blur", "boxblur=5:1");
     ("sharpen", "unsharp=5:5:1.0:5:5:0.0");
     ("brightness", "eq=brightness=0.15");
     ("contrast", "eq=contrast=1.5");
     ("saturate", "eq=saturation=2.0");
     ("vignette", "vignette=PI/4");
     ("vintage", "curves=vintage");
     ("negative", "negate");
     ("mirror", "hflip");
     ("emboss", "convolution=-2 -1 0 -1 1 1 0 1 2:-2 -1 0 -1 1 1 0 1 2:-2 -1 0 -1 1 1 0 1 2:-2 -1 0 -1 1 1 0 1 2:5:5:5:5:0:128")].

(** The property names every object literal inherits from
    [Object.prototype]; each of them holds a function or an object. *)
Definition Object_prototype : list string :=
  ["constructor"; "hasOwnProperty"; "isPrototypeOf"; "propertyIsEnumerable";
   "toLocaleString"; "toString"; "valueOf"; "__proto__";
   "__defineGetter__"; "__defineSetter__";
   "__lookupGetter__"; "__lookupSetter__"].

(** [obj[key]] for an object literal with string values: an own property,
    else an inherited one, else [undefined]. *)
Definition get_property (own : gmap string string) (key : string) : value :=
  match own !! key with
  | Some s => Text s
  | None =>
      if bool_decide (key ∈ Object_prototype) then Object key else Undefined
  end.

Definition postFilter (fs : Fs.t) (uuid : string) (q : Queue.state)
    (body : filter_body) : outcome :=
  if negb (truthy_string (filter_filename body))
     || negb (truthy_string (filter body)) then
    refuse q 400 "filename and filter required"
  else
    let filename := default EmptyString (filter_filename body) in
    let name := default EmptyString (filter body) in
    let outputFilename := "filtered_" +:+ uuid +:+ ".mp4" in
    if negb (Fs.existsSync (Fs.uploads fs) filename) then
      refuse q 404 "Input file not found"
    else
      let videoFilter := get_property filterMap name in
      if negb (truthy videoFilter) then
        refuse q 400 ("Unknown filter: " +:+ name)
      else
        submit q
          {| cmd := {| inputs := [filename];
                       inputOptions := [];
                       switches := [];
                       videoFilters := [[Val videoFilter]; [Lit "scale=480:-2"]];
                       audioFilters := [];
                       complexFilter := [];
                       outputOptions := FFMPEG_NO_SCALE_OPTS;
                       output := outputFilename |};
             on_end := Success outputFilename
                         ("Filter '" +:+ name +:+ "' applied successfully");
             on_error := "Failed to apply filter" |}.

(** *** [POST /text] *)

(** A string as its UTF-16 code units. *)
Definition units := list N.

Definition unit (c : ascii) : N := N_of_ascii c.

(** The code units of the backslash, the apostrophe, the colon, the
    percent sign, the two square brackets and the semicolon. *)
Definition BACKSLASH : N := 92%N.
Definition APOSTROPHE : N := 39%N.
Definition COLON : N := 58%N.
Definition PERCENT : N := 37%N.
Definition LBRACKET : N := 91%N.
Definition RBRACKET : N := 93%N.
Definition SEMICOLON : N := 59%N.
(** U+2019, the right single quotation mark. *)
Definition RIGHT_QUOTE : N := 8217%N.

(** [s.replace(/c/g, r)] for a one-character pattern [c] and a
    replacement [r] without [$]. *)
Definition replace_all (c : N) (r : units) (s : units) : units :=
  s ≫= (λ x, if N.eqb x c then r else [x]).

(** The chain of [replace] calls that computes [escapedText]. *)
Definition escapedText (text : units) : units :=
  replace_all RBRACKET [BACKSLASH; RBRACKET]
    (replace_all LBRACKET [BACKSLASH; LBRACKET]
       (replace_all PERCENT [PERCENT; PERCENT]
          (replace_all COLON [BACKSLASH; COLON]
             (replace_all APOSTROPHE [RIGHT_QUOTE]
                (replace_all BACKSLASH [BACKSLASH; BACKSLASH] text))))).

(** What the chain does to one code unit. *)
Definition escape_unit (c : N) : units :=
  if N.eqb c BACKSLASH then [BACKSLASH; BACKSLASH]
  else if N.eqb c APOSTROPHE then [RIGHT_QUOTE]
  else if N.eqb c COLON then [BACKSLASH; COLON]
  else if N.eqb c PERCENT then [PERCENT; PERCENT]
  else if N.eqb c LBRACKET then [BACKSLASH; LBRACKET]
  else if N.eqb c RBRACKET then [BACKSLASH; RBRACKET]
  else [c].

(** The characters the text argument of the filter gives a meaning to. *)
Definition special (c : N) : bool :=
  N.eqb c BACKSLASH || N.eqb c APOSTROPHE || N.eqb c COLON
  || N.eqb c PERCENT || N.eqb c LBRACKET || N.eqb c RBRACKET.

(** Reading a text argument from the left: a backslash takes the next
    code unit with it, a percent sign must be doubled, and outside of
    these pairs no special character occurs. *)
Fixpoint neutralized (s : units) : bool :=
  match s with
  | [] => true
  | c :: rest =>
      if N.eqb c BACKSLASH then
        match rest with
        | [] => false
        | _ :: rest' => neutralized rest'
        end
      else if N.eqb c PERCENT then
        match rest with
        | [] => false
        | p :: rest' => N.eqb p PERCENT && neutralized rest'
        end
      else if special c then false
      else neutralized rest
  end.

(** The characters an argument stands for: the code unit after a
    backslash, one percent sign for two. *)
Fixpoint literal (s : units) : units :=
  match s with
  | [] => []
  | c :: rest =>
      if N.eqb c BACKSLASH then
        match rest with
        | [] => [c]
        | u :: rest' => u :: literal rest'
        end
      else if N.eqb c PERCENT then
        match rest with
        | [] => [c]
        | p :: rest' =>
            if N.eqb p PERCENT then PERCENT :: literal rest'
            else c :: literal rest
        end
      else c :: literal rest
  end.

(** The code units of an ASCII string. *)
Fixpoint units_of (s : string) : units :=
  match s with
  | EmptyString => []
  | String c s' => unit c :: units_of s'
  end.

Record text_body := mkText {
  text_filename : option string;
  text : option units;
  fontSize : value;
  fontColor : option string;
  x : value;
  y : value;
  text_startTime : value;
  text_endTime : value
}.

(** [v || d] *)
Definition or_else (v d : value) : value := if truthy v then v else d.

Definition is_undefined (v : value) : bool :=
  match v with Undefined => true | _ => false end.

(** [fontFile] is what [getSystemFont()] returned. *)
Definition postText (fs : Fs.t) (fontFile : option string) (uuid : string)
    (q : Queue.state) (body : text_body) : outcome :=
  if negb (truthy_string (text_filename body))
     || negb (bool_decide (is_Some (text body) ∧ text body ≠ Some []))
  then refuse q 400 "filename and text required"
  else
    let filename := default EmptyString (text_filename body) in
    let outputFilename := "text_" +:+ uuid +:+ ".mp4" in
    if negb (Fs.existsSync (Fs.uploads fs) filename) then
      refuse q 404 "Input file not found"
    else
      let size := or_else (fontSize body) (Number (Some 32%Q)) in
      let color0 := if truthy_string (fontColor body)
                    then default EmptyString (fontColor body) else "white" in
      let color := match color0 with
                   | String "#" rest => "0x" +:+ rest
                   | _ => color0
                   end in
      let posX := or_else (x body) (Text "(w-text_w)/2") in
      let posY := or_else (y body) (Text "(h-text_h)/2") in
      let escaped := escapedText (default [] (text body)) in
      let style := [Lit "':fontsize="; Val size; Lit ":fontcolor="; Lit color;
                    Lit ":x="; Val posX; Lit ":y="; Val posY] in
      let drawTextFilter :=
        ((if truthy_string fontFile then
            [Lit "drawtext=fontfile='"; Lit (default EmptyString fontFile);
             Lit "':text='"; Units escaped]
          else [Lit "drawtext=text='"; Units escaped]) ++ style)%list in
      let timed :=
        if negb (is_undefined (text_startTime body))
           && negb (is_undefined (text_endTime body))
        then [Lit ":enable='between(t,"; Val (text_startTime body); Lit ",";
              Val (text_endTime body); Lit ")'"]
        else [] in
      submit q
        {| cmd := {| inputs := [filename];
                     inputOptions := [];
                     switches := [];
                     videoFilters := [(drawTextFilter ++ timed)%list;
                                      [Lit "scale=480:-2"]];
                     audioFilters := [];
                     complexFilter := [];
                     outputOptions := FFMPEG_NO_SCALE_OPTS;
                     output := outputFilename |};
           on_end := Success outputFilename "Text overlay added successfully";
           on_error := "Failed to add text" |}.

(** *** [POST /merge] *)

Record merge_body := mkMerge { filenames : option (list string) }.

Definition index (i : nat) : piece := Num (Some (inject_Z (Z.of_nat i))).

Definition merge_filterParts (n : nat) : list template :=
  ((seq 0 n ≫= (λ i,
     [[Lit "["; index i;
       Lit ":v]scale=854:480:force_original_aspect_ratio=decrease,pad=854:480:(ow-iw)/2:(oh-ih)/2,setsar=1,fps=24[v";
       index i; Lit "]"];
      [Lit "["; index i;
       Lit ":a]aformat=sample_fmts=fltp:sample_rates=44100:channel_layouts=stereo[a";
       index i; Lit "]"]]))
  ++ [(seq 0 n ≫= (λ i, [Lit "[v"; index i; Lit "][a"; index i; Lit "]"]))
      ++ [Lit "concat=n="; index n; Lit ":v=1:a=1[outv][outa]"]])%list.

Definition postMerge (fs : Fs.t) (uuid : string) (q : Queue.state)
    (body : merge_body) : outcome :=
  match filenames body with
  | None => refuse q 400 "At least 2 filenames required"
  | Some names =>
      if bool_decide (length names < 2)%nat then
        refuse q 400 "At least 2 filenames required"
      else
        match List.find (λ f, negb (Fs.existsSync (Fs.uploads fs) f)) names with
        | Some f => refuse q 404 ("File not found: " +:+ f)
        | None =>
            let outputFilename := "merged_" +:+ uuid +:+ ".mp4" in
            submit q
              {| cmd := {| inputs := names;
                           inputOptions := [];
                           switches := [];
                           videoFilters := [];
                           audioFilters := [];
                           complexFilter := merge_filterParts (length names);
                           outputOptions :=
                             Lit <$> ["-c:v"; "libx264"; "-c:a"; "aac";
                                      "-preset"; "ultrafast"; "-crf"; "28";
                                      "-threads"; "1";
                                      "-movflags"; "+faststart"; "-shortest"];
                           output := outputFilename |};
                 on_end := Success outputFilename "Videos merged successfully";
                 on_error := "Failed to merge videos" |}
        end
  end.

(** *** [POST /audio] *)

Record audio_body := mkAudio {
  audio_filename : option string;
  operation : option string;
  volume : value
}.

(** What [ffprobe] hands to its callback as [metadata]. *)
Record format_info := mkFormat { duration : value }.
Record metadata := mkMetadata { format : option format_info }.

(** [(metadata && metadata.format && metadata.format.duration)
      ? parseFloat(metadata.format.duration) : 30] *)
Definition fadeOut_duration (parseFloatText : string → number)
    (probed : option metadata) : number :=
  match probed with
  | Some {| format := Some {| duration := d |} |} =>
      if truthy d then parseFloat parseFloatText d else Some 30%Q
  | _ => Some 30%Q
  end.

(** The [metadata] of a probe that reports [v] as the duration of the
    format. *)
Definition probe_reporting (v : value) : option metadata :=
  Some {| format := Some {| duration := v |} |}.

(** [Math.max(0, duration - 3)] *)
Definition fadeStart (duration : number) : number :=
  Math_max (Some 0%Q) (minus duration (Some 3%Q)).

Definition audio_job (operation_ : string) (c : command) : jobFn :=
  {| cmd := c;
     on_end := Success (output c)
                 ("Audio operation '" +:+ operation_ +:+ "' completed");
     on_error := "Failed to process audio" |}.

(** [probed] is the [metadata] argument of the [ffprobe] callback
    ([None] when probing failed); the callback does not look at [err]. *)
Definition postAudio (parseFloatText : string → number) (fs : Fs.t)
    (probed : option metadata) (uuid : string) (q : Queue.state)
    (body : audio_body) : outcome :=
  if negb (truthy_string (audio_filename body))
     || negb (truthy_string (operation body)) then
    refuse q 400 "filename and operation required"
  else
    let filename := default EmptyString (audio_filename body) in
    let op := default EmptyString (operation body) in
    if negb (Fs.existsSync (Fs.uploads fs) filename) then
      refuse q 404 "Input file not found"
    else if String.eqb op "extract" then
      let audioFilename := "audio_" +:+ uuid +:+ ".mp3" in
      submit q
        {| cmd := {| inputs := [filename]; inputOptions := [];
                     switches := ["noVideo"; "audioCodec libmp3lame";
                                  "audioBitrate 128k"];
                     videoFilters := []; audioFilters := [];
                     complexFilter := []; outputOptions := [];
                     output := audioFilename |};
           on_end := Success audioFilename "Audio extracted successfully";
           on_error := "Failed to extract audio" |}
    else
      let outputFilename := "audio_" +:+ uuid +:+ ".mp4" in
      if String.eqb op "fadeOut" then
        let duration := fadeOut_duration parseFloatText probed in
        submit q
          (audio_job "fadeOut"
             {| inputs := [filename]; inputOptions := []; switches := [];
                videoFilters := [];
                audioFilters := [[Lit "afade=t=out:st=";
                                  Num (fadeStart duration); Lit ":d=3"]];
                complexFilter := [];
                outputOptions := FFMPEG_OUTPUT_OPTS;
                output := outputFilename |})
      else if String.eqb op "mute" then
        submit q
          (audio_job op
             {| inputs := [filename]; inputOptions := [];
                switches := ["noAudio"];
                videoFilters := []; audioFilters := []; complexFilter := [];
                outputOptions := FFMPEG_VIDEO_ONLY_OPTS;
                output := outputFilename |})
      else if String.eqb op "volume" then
        submit q
          (audio_job op
             {| inputs := [filename]; inputOptions := []; switches := [];
                videoFilters := [];
                audioFilters := [[Lit "volume=";
                                  Val (or_else (volume body)
                                         (Number (Some 1%Q)))]];
                complexFilter := [];
                outputOptions := FFMPEG_OUTPUT_OPTS;
                output := outputFilename |})
      else if String.eqb op "fadeIn" then
        submit q
          (audio_job op
             {| inputs := [filename]; inputOptions := []; switches := [];
                videoFilters := [];
                audioFilters := [[Lit "afade=t=in:st=0:d=3"]];
                complexFilter := [];
                outputOptions := FFMPEG_OUTPUT_OPTS;
                output := outputFilename |})
      else refuse q 400 ("Unknown audio operation: " +:+ op).

(** A handler that returns has done one of two things: it has sent a
    400 or 404 refusal and left the queue alone, or it has passed one
    job to [enqueueJob] and sent nothing yet. *)
Definition refused_or_queued (q : Queue.state) (o : outcome) : Prop :=
  (∃ st error, o = refuse q st error ∧ (st = 400 ∨ st = 404))
  ∨ (∃ j, o = submit q j).

End Routes.

(** ** The route module without a queue, where it differs *)

Module Legacy.

Import Js.

(** [escapedText] of this module: four backslashes for one, the
    sequence quote, three backslashes, two quotes for a quote, and a
    backslash before a colon or a semicolon. *)
Definition escapedText (text : Routes.units) : Routes.units :=
  let B := Routes.BACKSLASH in
  let A := Routes.APOSTROPHE in
  Routes.replace_all Routes.SEMICOLON [B; Routes.SEMICOLON]
    (Routes.replace_all Routes.COLON [B; Routes.COLON]
       (Routes.replace_all A [A; B; B; B; A; A]
          (Routes.replace_all B [B; B; B; B] text))).

(** What the chain of this module does to one code unit. *)
Definition escape_unit (c : N) : Routes.units :=
  let B := Routes.BACKSLASH in
  let A := Routes.APOSTROPHE in
  if N.eqb c B then [B; B; B; B]
  else if N.eqb c A then [A; B; B; B; A; A]
  else if N.eqb c Routes.COLON then [B; Routes.COLON]
  else if N.eqb c Routes.SEMICOLON then [B; Routes.SEMICOLON]
  else [c].

(** The characters this module does something to. *)
Definition special (c : N) : bool :=
  N.eqb c Routes.BACKSLASH || N.eqb c Routes.APOSTROPHE
  || N.eqb c Routes.COLON || N.eqb c Routes.SEMICOLON.

(** [ToNumber] of a body field inside a subtraction; the conversion of
    text is the built-in's. *)
Definition toNumber (toNumberText : string → number) (v : value) : number :=
  match v with
  | Undefined => None
  | Number x => x
  | Text s => toNumberText s
  | Object _ => None
  end.

(** The argument of [cmd.setDuration(endTime - (startTime || 0))], called
    only [if (endTime)]. *)
Definition trim_setDuration (toNumberText : string → number)
    (startTime endTime : value) : option number :=
  if truthy endTime then
    Some (minus (toNumber toNumberText endTime)
                (toNumber toNumberText
                   (Routes.or_else startTime (Number (Some 0%Q)))))
  else None.

End Legacy.

(** ** The font of the text overlay ([getSystemFont]) *)

Module Font.

Import Stdlib.Strings.String.
Local Open Scope string_scope.

Definition backslash : ascii := ascii_of_N 92.

(** The candidates of the route module with the queue, in order. *)
Definition candidates : list string :=
  ["/usr/share/fonts/truetype/dejavu/DejaVuSans.ttf";
   "/usr/share/fonts/truetype/liberation/LiberationSans-Regular.ttf";
   "/usr/share/fonts/truetype/freefont/FreeSans.ttf";
   "C:/Windows/Fonts/arial.ttf";
   "C:/Windows/Fonts/segoeui.ttf";
   "C:/Windows/Fonts/tahoma.ttf"].

(** [s.replace(/c/g, r)] on an ASCII string, for a one-character
    pattern. *)
Fixpoint replace_char (c : ascii) (r : string) (s : string) : string :=
  match s with
  | EmptyString => EmptyString
  | String x s' =>
      (if Ascii.eqb x c then r else String x EmptyString)
      +:+ replace_char c r s'
  end.

(** The two [replace] calls on the path that was found: backslashes
    become slashes, then every colon gets a backslash. *)
Definition escape_path (f : string) : string :=
  replace_char ":" (String backslash ":") (replace_char backslash "/" f).

(** [getSystemFont()]; [exists_] is [fs.existsSync] on absolute paths,
    [None] is [null]. *)
Definition getSystemFont (exists_ : string → bool) : option string :=
  escape_path <$> List.find exists_ candidates.

(** No backslash occurs in [s]. *)
Fixpoint no_backslash (s : string) : bool :=
  match s with
  | EmptyString => true
  | String x s' => negb (Ascii.eqb x backslash) && no_backslash s'
  end.

(** Read from the left, every backslash of [s] is followed by a colon
    and every colon follows a backslash. *)
Fixpoint colons_escaped (s : string) : bool :=
  match s with
  | EmptyString => true
  | String x r =>
      if Ascii.eqb x backslash then
        match r with
        | String y r' => Ascii.eqb y ":" && colons_escaped r'
        | EmptyString => false
        end
      else negb (Ascii.eqb x ":") && colons_escaped r
  end.

End Font.

(** ** Uploads ([POST /upload], [POST /upload-multiple]) and the error
       middleware *)

Module Upload.

Import Stdlib.Strings.String.
Local Open Scope string_scope.
Local Open Scope Z_scope.

(** [pat] occurs in [s]. *)
Fixpoint contains (pat s : string) : bool :=
  String.prefix pat s
  || match s with
     | EmptyString => false
     | String _ s' => contains pat s'
     end.

(** [/video|audio/.test(file.mimetype)], the test of [fileFilter]. *)
Definition allowed (mimetype : string) : bool :=
  contains "video" mimetype || contains "audio" mimetype.

(** What reaches the error middleware of the router. *)
Inductive error :=
  | LIMIT_FILE_SIZE
  | MulterError (message : string)
  | PlainError (message : string).

(** [fileFilter]: [cb(null, true)] or
    [cb(new Error('Only video/audio files are allowed'), false)]. *)
Definition fileFilter (mimetype : string) : option error :=
  if allowed mimetype then None
  else Some (PlainError "Only video/audio files are allowed").

(** The error middleware at the end of the router: status and
    [error] text of the reply. *)
Definition errorHandler (err : error) : Z * string :=
  match err with
  | LIMIT_FILE_SIZE => (413, "File too large. Max size is 50MB.")
  | MulterError message => (400, message)
  | PlainError message => (400, message)
  end.

(** [req.file] as multer leaves it. *)
Record file := mkFile {
  filename : string;
  originalname : string;
  size : Z
}.

(** One stream of the probed metadata. *)
Record stream := mkStream {
  codec_type : string;
  width : Js.value;
  height : Js.value
}.

(** The metadata of a successful probe: [streams] and [format] may be
    missing. *)
Record probe := mkProbe {
  streams : option (list stream);
  format : option Routes.format_info
}.

(** The body of a successful upload reply. *)
Record uploaded := mkUploaded {
  up_filename : string;
  up_originalName : string;
  up_size : Z;
  up_duration : Js.value;
  up_width : Js.value;
  up_height : Js.value
}.

(** A refusal, the success reply, or [Thrown] when the callback reads
    [metadata.format.duration] of a probe without [format]. *)
Inductive reply :=
  | Refused (status : Z) (error : string)
  | Stored (body : uploaded)
  | Thrown.

Definition zero : Js.value := Js.Number (Some 0%Q).

(** [v || 0] *)
Definition or_zero (v : Js.value) : Js.value :=
  if Js.truthy v then v else zero.

(** The handler of [POST /upload]; [probed] is [None] when [ffprobe]
    reports an error. *)
Definition postUpload (req_file : option file) (probed : option probe)
    : reply :=
  match req_file with
  | None => Refused 400 "No file uploaded"
  | Some f =>
      match probed with
      | None =>
          Stored {| up_filename := filename f;
                    up_originalName := originalname f;
                    up_size := size f;
                    up_duration := zero; up_width := zero;
                    up_height := zero |}
      | Some metadata =>
          let videoStream :=
            List.find (λ s, String.eqb (codec_type s) "video")
              (default [] (streams metadata)) in
          match format metadata with
          | None => Thrown
          | Some fmt =>
              Stored {| up_filename := filename f;
                        up_originalName := originalname f;
                        up_size := size f;
                        up_duration := or_zero (Routes.duration fmt);
                        up_width :=
                          or_zero (from_option width Js.Undefined videoStream);
                        up_height :=
                          or_zero (from_option height Js.Undefined
                                     videoStream) |}
          end
      end
  end.

(** The whole route for one file part: the filter of multer, the size
    limit ([too_large] when multer raised it), the handler. *)
Definition upload (mimetype : string) (too_large : bool) (f : file)
    (probed : option probe) : reply :=
  match fileFilter mimetype with
  | Some err => Refused (errorHandler err).1 (errorHandler err).2
  | None =>
      if too_large then
        Refused (errorHandler LIMIT_FILE_SIZE).1 (errorHandler LIMIT_FILE_SIZE).2
      else postUpload (Some f) probed
  end.

End Upload.

(** ** Download ([GET /export/:filename]) *)

Module Exporting.

Local Open Scope string_scope.
Local Open Scope Z_scope.

Inductive reply :=
  | NotFound
  | Download (d : Fs.dir_name) (name : string).

(** The processed directory is looked at first, then the uploads
    directory. *)
Definition getExport (fs : Fs.t) (filename : string) : reply :=
  if Fs.existsSync (Fs.processed fs) filename then
    Download Fs.PROCESSED_DIR filename
  else if Fs.existsSync (Fs.uploads fs) filename then
    Download Fs.UPLOADS_DIR filename
  else NotFound.

End Exporting.

(** ** Merging in the route module without a queue *)

Module LegacyMerge.

Local Open Scope string_scope.
Local Open Scope Z_scope.

(** The engine run on the list file: it changes the files and reports
    [end] or [error]. *)
Definition engine := Fs.t → Fs.t * Routes.engine_event.

(** From [fs.writeFileSync(listFilePath, fileList)] to the reply:
    the list file [list_name] is written to the processed directory as
    the entry [listed], the engine runs, and both callbacks remove the
    list file (the [try] with [existsSync] and [unlinkSync]) before they
    reply. [None] when [writeFileSync] throws for want of the
    directory. *)
Definition merge_job (ffmpeg : engine) (list_name outputFilename : string)
    (listed : Fs.node) (fs : Fs.t) : option (Fs.t * Routes.response) :=
  match Fs.processed fs with
  | None => None
  | Some m =>
      let fs1 := Fs.set Fs.PROCESSED_DIR (Some (<[list_name := listed]> m)) fs in
      let '(fs2, ev) := ffmpeg fs1 in
      let fs3 := Routes.safeDelete Fs.PROCESSED_DIR list_name fs2 in
      Some (fs3,
            match ev with
            | Routes.End =>
                Routes.Success outputFilename "Videos merged successfully"
            | Routes.Error message =>
                Routes.Failure 500 "Failed to merge videos" (Some message)
            end)
  end.

End LegacyMerge.

(** ** Sample runs, used to instantiate the theorems *)

(** A run of the module as it is configured: three submissions, the
    second job fails, and in the end nothing is running. *)
Definition queue_demo_trace : list Queue.event :=
  [Queue.Submit; Queue.Submit; Queue.Settle 0%nat Queue.Fulfilled;
   Queue.Submit; Queue.Settle 1%nat Queue.Rejected;
   Queue.Settle 2%nat Queue.Fulfilled].

Definition queue_demo_state : Queue.state :=
  {| Queue.activeJobs := 0; Queue.jobQueue := [];
     Queue.pending := []; Queue.started := [0; 1; 2]%nat;
     Queue.delivered := [(0%nat, Queue.Fulfilled); (1%nat, Queue.Rejected);
                         (2%nat, Queue.Fulfilled)];
     Queue.submitted := 3;
     Queue.counter_log := [0; 1; 0; 1; 0; 1; 0] |}.

(** Two submissions: the first job runs, the second one waits. *)
Definition queue_busy_state : Queue.state :=
  {| Queue.activeJobs := 1; Queue.jobQueue := [1%nat];
     Queue.pending := [0%nat]; Queue.started := [0%nat];
     Queue.delivered := []; Queue.submitted := 2;
     Queue.counter_log := [0; 1] |}.

(** The state after a third submission and the failure of the first job. *)
Definition queue_after_failure : Queue.state :=
  {| Queue.activeJobs := 1; Queue.jobQueue := [2%nat];
     Queue.pending := [1%nat]; Queue.started := [0; 1]%nat;
     Queue.delivered := [(0%nat, Queue.Rejected)];
     Queue.submitted := 3;
     Queue.counter_log := [0; 1; 0; 1] |}.

(** An uploads directory at clock [2000000]: an old file, a recent file
    and an old file that cannot be unlinked. *)
Definition sweep_demo_uploads : gmap string Fs.node :=
  {[ "old.mp4"%string := Fs.mkNode true 1000 10 false false;
     "new.mp4"%string := Fs.mkNode true 1900000 20 false false;
     "busy.mp4"%string := Fs.mkNode true 1000 30 false true ]}.

Definition sweep_demo_fs : Fs.t :=
  {| Fs.uploads := Some sweep_demo_uploads; Fs.processed := Some ∅ |}.

(** A 1000-byte artifact in the uploads directory. *)
Definition stream_demo_uploads : gmap string Fs.node :=
  {[ "a.mp4"%string := Fs.mkNode true 0 1000 false false ]}.

(** An uploads directory with one clip, and requests on it. *)
Definition demo_fs : Fs.t :=
  {| Fs.uploads := Some {[ "clip.mp4"%string := Fs.mkNode true 0 1000 false false ]};
     Fs.processed := Some ∅ |}.

(** [parseFloat] on text, for requests whose fields are numbers. *)
Definition no_text : string → Js.number := λ _, None.

Definition trim_forward : Routes.trim_body :=
  {| Routes.trim_filename := Some "clip.mp4"%string;
     Routes.startTime := Js.Number (Some 1%Q);
     Routes.endTime := Js.Number (Some 4%Q) |}.

Definition trim_backward : Routes.trim_body :=
  {| Routes.trim_filename := Some "clip.mp4"%string;
     Routes.startTime := Js.Number (Some 5%Q);
     Routes.endTime := Js.Number (Some 3%Q) |}.

Definition filter_unknown_missing_file : Routes.filter_body :=
  {| Routes.filter_filename := Some "gone.mp4"%string;
     Routes.filter := Some "nope"%string |}.

Definition filter_unknown : Routes.filter_body :=
  {| Routes.filter_filename := Some "clip.mp4"%string;
     Routes.filter := Some "nope"%string |}.

Definition filter_inherited : Routes.filter_body :=
  {| Routes.filter_filename := Some "clip.mp4"%string;
     Routes.filter := Some "constructor"%string |}.

Definition fadeOut_request : Routes.audio_body :=
  {| Routes.audio_filename := Some "clip.mp4"%string;
     Routes.operation := Some "fadeOut"%string;
     Routes.volume := Js.Undefined |}.

(** A job of [POST /filter] and an engine that fails after it has
    written 17 bytes of the output. *)
Definition filter_job : Routes.jobFn :=
  {| Routes.cmd :=
       {| Routes.inputs := ["clip.mp4"%string];
          Routes.inputOptions := [];
          Routes.switches := [];
          Routes.videoFilters := [[Js.Val (Js.Text "negate")];
                                  [Js.Lit "scale=480:-2"]];
          Routes.audioFilters := [];
          Routes.complexFilter := [];
          Routes.outputOptions := Routes.FFMPEG_NO_SCALE_OPTS;
          Routes.output := "filtered_u.mp4"%string |};
     Routes.on_end := Routes.Success "filtered_u.mp4"
                        "Filter 'negative' applied successfully";
     Routes.on_error := "Failed to apply filter"%string |}.

Definition failing_engine : Routes.engine :=
  λ c fs,
    (Fs.set Fs.PROCESSED_DIR
       (Some (<[ Routes.output c := Fs.mkNode true 0 17 false false ]>
                (default ∅ (Fs.processed fs)))) fs,
     Routes.Error "Conversion failed!").

Definition filter_blur : Routes.filter_body :=
  {| Routes.filter_filename := Some "clip.mp4"%string;
     Routes.filter := Some "blur"%string |}.

Definition merge_one_missing : Routes.merge_body :=
  {| Routes.filenames := Some ["clip.mp4"; "gone.mp4"; "lost.mp4"]%string |}.

Definition font_on_windows : string → bool :=
  λ f, String.eqb f "C:/Windows/Fonts/segoeui.ttf"
       || String.eqb f "C:/Windows/Fonts/tahoma.ttf".

Definition demo_stored_file : Upload.file :=
  {| Upload.filename := "0f0e.mp4"; Upload.originalname := "holiday.mp4";
     Upload.size := 1000 |}.

(** A processed directory that holds the list file of a merge. *)
Definition merge_demo_fs : Fs.t :=
  {| Fs.uploads := Some ∅;
     Fs.processed :=
       Some {[ "merged_a.mp4"%string := Fs.mkNode true 0 10 false false ]} |}.

(** An engine that fails without touching the files. *)
Definition idle_failing_engine : LegacyMerge.engine :=
  λ fs, (fs, Routes.Error "Conversion failed!").

(** * Properties *)

(** ** The job queue *)

Section QueueFacts.
Import Queue.

(** The ceiling; the module fixes it to [MAX_CONCURRENT_JOBS]. *)
Variable N : Z.
Hypothesis N_pos : 1 ≤ N.

Local Abbreviation inv := (Queue.inv N).

Ltac fields :=
  cbn [activeJobs jobQueue pending started delivered submitted counter_log
       run push] in *.

Lemma take_out_perm j l k : take_out j l = Some k → l ≡ₚ j :: k.
Proof.
  revert k. induction l as [|x l IH]; intros k; simpl; [done|].
  case_decide as Hx.
  - intros [= <-]. by subst.
  - destruct (take_out j l) as [k'|]; [|done].
    intros [= <-]. rewrite (IH k' eq_refl). apply Permutation_swap.
Qed.

Lemma take_out_elem j l : j ∈ l → is_Some (take_out j l).
Proof.
  induction 1 as [x l|x y l _ IH]; simpl.
  - rewrite decide_True; eauto.
  - case_decide; [eauto|]. destruct IH as [k ->]. eauto.
Qed.

Lemma take_out_head j l : take_out j (j :: l) = Some l.
Proof. simpl. by rewrite decide_True. Qed.

Lemma inv_init : inv init.
Proof.
  split; simpl; try done; try lia.
  repeat constructor; lia.
Qed.

Lemma inv_enqueueJob s : inv s → inv (enqueueJob N s).
Proof.
  intros [Hc Hn Hs Ho Ha Hl]. unfold enqueueJob. fields.
  destruct (Z.ltb_spec (activeJobs s) N) as [Hlt|Hge].
  - assert (jobQueue s = []) as Hq.
    { destruct (jobQueue s) as [|q qs] eqn:E; [done|].
      assert (activeJobs s = N) by (apply Hs; done). lia. }
    split; fields.
    + rewrite length_app. simpl. lia.
    + lia.
    + rewrite Hq. done.
    + rewrite Hq in *. rewrite app_nil_r in *. rewrite seq_S. by f_equal.
    + rewrite Ha. by rewrite (assoc_L (++)).
    + apply Forall_app. split; [done|]. apply Forall_singleton.
      pose proof (Nat2Z.is_nonneg (length (pending s))). lia.
  - split; fields; try done.
    + intros _. lia.
    + rewrite (assoc_L (++)), Ho, seq_S. done.
Qed.

Lemma inv_settle j o s s' : inv s → settle j o s = Some s' → inv s'.
Proof.
  intros [Hc Hn Hs Ho Ha Hl]. unfold settle.
  destruct (take_out j (pending s)) as [rest|] eqn:Ht; [|done].
  apply take_out_perm in Ht.
  assert (length (pending s) = S (length rest)) as Hlen by (by rewrite Ht).
  fields. destruct (jobQueue s) as [|next waiting] eqn:Hq.
  - intros [= <-]. split; fields.
    + lia.
    + lia.
    + done.
    + done.
    + rewrite Ha, Ht, fmap_app. simpl.
      by rewrite <- (assoc_L (++)).
    + apply Forall_app. split; [done|]. apply Forall_singleton. lia.
  - intros [= <-]. assert (activeJobs s = N) as HN by (apply Hs; done).
    split; fields.
    + rewrite length_app. simpl. lia.
    + lia.
    + intros _. lia.
    + rewrite <- Ho, <- (assoc_L (++)). done.
    + rewrite Ha, Ht, fmap_app. simpl.
      by rewrite <- !(assoc_L (++)).
    + rewrite <- (assoc_L (++)). apply Forall_app. split; [done|].
      simpl. repeat constructor; lia.
Qed.

Lemma inv_step s e s' : inv s → step N s e = Some s' → inv s'.
Proof.
  destruct e as [|j o]; simpl.
  - intros Hi [= <-]. by apply inv_enqueueJob.
  - apply inv_settle.
Qed.

Lemma inv_exec tr : ∀ s s', inv s → exec N s tr = Some s' → inv s'.
Proof.
  induction tr as [|e tr IH]; simpl; intros s s' Hi.
  - by intros [= <-].
  - destruct (step N s e) as [s1|] eqn:Hs; [|done].
    intros He. eapply IH; [|done]. by eapply inv_step.
Qed.

Lemma settle_submitted j o s s' :
  settle j o s = Some s' → submitted s' = submitted s.
Proof.
  unfold settle. destruct (take_out j (pending s)); [|done]. simpl.
  destruct (jobQueue s); intros [= <-]; done.
Qed.

Lemma enqueueJob_submitted s : submitted (enqueueJob N s) = S (submitted s).
Proof. unfold enqueueJob. simpl. by case_match. Qed.

Lemma exec_submitted tr : ∀ s s',
  exec N s tr = Some s' → submitted s' = (submitted s + submissions tr)%nat.
Proof.
  induction tr as [|e tr IH]; simpl; intros s s'.
  - intros [= <-]. unfold submissions. simpl. lia.
  - destruct (step N s e) as [s1|] eqn:Hs; [|done].
    intros He. rewrite (IH _ _ He). unfold submissions.
    destruct e as [|j o]; simpl in Hs.
    + injection Hs as <-. rewrite enqueueJob_submitted.
      rewrite filter_cons_True by done. simpl. lia.
    + rewrite (settle_submitted _ _ _ _ Hs).
      rewrite filter_cons_False by done. done.
Qed.

Lemma reachable_inv tr s : exec N init tr = Some s → inv s.
Proof. apply inv_exec, inv_init. Qed.

Lemma reachable_submitted tr s :
  exec N init tr = Some s → submitted s = submissions tr.
Proof. intros He. by rewrite (exec_submitted _ _ _ He). Qed.

(** When nothing runs, nothing waits and every submitted job has been
    answered. *)
Lemma inv_idle s :
  inv s → pending s = [] →
  jobQueue s = [] ∧ (delivered s).*1 ≡ₚ seq 0 (submitted s).
Proof.
  intros [Hc Hn Hs Ho Ha Hl] Hp.
  assert (jobQueue s = []) as Hq.
  { destruct (jobQueue s) as [|q qs] eqn:E; [done|].
    assert (activeJobs s = N) by (apply Hs; done).
    rewrite Hp in Hc. simpl in Hc. lia. }
  split; [done|].
  rewrite Hq, app_nil_r in Ho. rewrite Hp, app_nil_r in Ha.
  by rewrite <- Ho, Ha.
Qed.

(** Jobs enter [run] in submission order, and the waiting ones are the
    next ones in that order. *)
Lemma inv_fifo s :
  inv s →
  started s = seq 0 (length (started s)) ∧
  jobQueue s = seq (length (started s)) (length (jobQueue s)).
Proof.
  intros [_ _ _ Ho _ _].
  assert (submitted s = (length (started s) + length (jobQueue s))%nat) as E.
  { rewrite <- (length_seq (submitted s) 0), <- Ho. apply length_app. }
  rewrite E, seq_app in Ho.
  apply app_inj_1 in Ho; [|by rewrite length_seq].
  destruct Ho as [H1 H2]. done.
Qed.

Lemma settle_pending_head j rest o s :
  pending s = j :: rest → is_Some (settle j o s).
Proof.
  intros Hp. unfold settle. rewrite Hp, take_out_head. fields.
  destruct (jobQueue s); eauto.
Qed.

(** One settlement makes the number of unfinished jobs drop by one. *)
Lemma settle_measure j o s s' :
  settle j o s = Some s' →
  (length (pending s) + length (jobQueue s) =
   S (length (pending s') + length (jobQueue s')))%nat.
Proof.
  unfold settle. destruct (take_out j (pending s)) as [rest|] eqn:Ht; [|done].
  apply take_out_perm in Ht. rewrite Ht. fields.
  destruct (jobQueue s) as [|next waiting]; intros [= <-]; fields.
  - simpl. lia.
  - rewrite length_app. simpl. lia.
Qed.

Lemma drain_settles_only outcome fuel : ∀ s,
  Forall (λ e, is_submit e = false) (drain outcome fuel s).
Proof.
  induction fuel as [|fuel IH]; intros s; simpl; [constructor|].
  destruct (pending s) as [|j rest]; [constructor|].
  destruct (settle j (outcome j) s); constructor; [done|apply IH].
Qed.

Lemma drain_completes outcome fuel : ∀ s,
  inv s →
  (length (pending s) + length (jobQueue s) ≤ fuel)%nat →
  ∃ s', exec N s (drain outcome fuel s) = Some s' ∧
        pending s' = [] ∧ jobQueue s' = [] ∧ activeJobs s' = 0 ∧
        submitted s' = submitted s ∧
        (delivered s').*1 ≡ₚ seq 0 (submitted s).
Proof.
  induction fuel as [|fuel IH]; intros s Hi Hm.
  - assert (pending s = []) as Hp by (destruct (pending s); [done|simpl in Hm; lia]).
    destruct (inv_idle s Hi Hp) as [Hq Hd].
    exists s. simpl. repeat split; try done.
    rewrite (inv_count _ _ Hi), Hp. done.
  - simpl. destruct (pending s) as [|j rest] eqn:Hp.
    + destruct (inv_idle s Hi Hp) as [Hq Hd].
      exists s. simpl. repeat split; try done.
      rewrite (inv_count _ _ Hi), Hp. done.
    + destruct (settle_pending_head j rest (outcome j) s Hp) as [s1 Hs1].
      rewrite Hs1. simpl. rewrite Hs1.
      pose proof (settle_measure _ _ _ _ Hs1) as Hdec.
      pose proof (settle_submitted _ _ _ _ Hs1) as Hsub.
      assert (inv s1) as Hi1 by (by eapply inv_settle).
      assert (length (pending s1) + length (jobQueue s1) ≤ fuel)%nat as Hm1.
      { rewrite Hp in Hdec. simpl in *. lia. }
      destruct (IH s1 Hi1 Hm1) as (s' & He & H1 & H2 & H3 & H4 & H5).
      exists s'. rewrite <- Hsub. repeat split; done.
Qed.

Lemma inv_NoDup_started s : inv s → NoDup (started s).
Proof.
  intros Hi. destruct (inv_fifo s Hi) as [-> _]. apply NoDup_seq.
Qed.

(** C1: for every sequence of submissions and settlements, with ceiling
    [N] (at least one slot), every value ever stored in [activeJobs] lies
    between 0 and [N], [activeJobs] is the number of running jobs and is
    at most [N]; and once no job is running any more, no job is waiting
    either and exactly the [J] submitted jobs, each one once, have got
    their result. *)
Theorem queue_bound_and_completion (tr : list event) (s : state) :
  exec N init tr = Some s →
  Forall (λ v, 0 ≤ v ≤ N) (counter_log s) ∧
  activeJobs s = Z.of_nat (length (pending s)) ∧
  activeJobs s ≤ N ∧
  (pending s = [] →
     jobQueue s = [] ∧
     length (delivered s) = submissions tr ∧
     (delivered s).*1 ≡ₚ seq 0 (submissions tr)).
Proof.
  intros He. pose proof (reachable_inv _ _ He) as Hi.
  pose proof (reachable_submitted _ _ He) as Hsub.
  split; [apply Hi|]. split; [apply Hi|]. split; [apply Hi|].
  intros Hp. destruct (inv_idle s Hi Hp) as [Hq Hd].
  rewrite Hsub in Hd. split; [done|]. split; [|done].
  rewrite <- (length_fmap fst), Hd. apply length_seq.
Qed.

(** A trace followed by one more event. *)
Lemma exec_snoc tr e : ∀ s s',
  exec N s tr = Some s' → exec N s (tr ++ [e]) = step N s' e.
Proof.
  induction tr as [|e' tr IH]; intros s s'; simpl.
  - intros [= ->]. by destruct (step N s' e).
  - destruct (step N s e') as [s1|]; [|done]. apply IH.
Qed.

(** While a job waits, a job is running. *)
Lemma inv_waiting_running s : inv s → jobQueue s ≠ [] → pending s ≠ [].
Proof.
  intros Hi Hq Hp. pose proof (inv_count _ _ Hi) as Hc.
  pose proof (inv_saturated _ _ Hi Hq) as Hn.
  rewrite Hp in Hc. simpl in Hc. lia.
Qed.

(** C2: jobs enter the running state in submission order: the i-th job
    to start is the i-th job submitted and the waiting jobs are the next
    submitted ones in order, so of two submitted jobs of which the later
    one has started, the earlier one has started before it. While a job
    waits, a job is running; and when a running job settles, in whatever
    way, while jobs wait, the settlement takes place and starts the
    oldest waiting job and only that one: it is the job submitted before
    all the other waiting ones, it leaves the queue and is the next to
    enter [run], and the others keep waiting in their order. A
    settlement that finds no job waiting starts none. *)
Theorem fifo_release (tr : list event) (s : state) :
  exec N init tr = Some s →
  started s = seq 0 (length (started s)) ∧
  jobQueue s = seq (length (started s)) (length (jobQueue s)) ∧
  (∀ A B : job, (A < B)%nat → B ∈ started s →
     ∃ i k, (i < k)%nat ∧ started s !! i = Some A ∧ started s !! k = Some B) ∧
  (jobQueue s ≠ [] → pending s ≠ []) ∧
  (∀ j o oldest waiting,
     j ∈ pending s → jobQueue s = oldest :: waiting →
     ∃ s' rest,
       exec N init (tr ++ [Settle j o]) = Some s' ∧
       settle j o s = Some s' ∧
       take_out j (pending s) = Some rest ∧
       jobQueue s' = waiting ∧
       started s' = started s ++ [oldest] ∧
       pending s' = rest ++ [oldest] ∧
       (∀ w, w ∈ waiting → (oldest < w)%nat)) ∧
  (∀ j o, j ∈ pending s → jobQueue s = [] →
     ∃ s', exec N init (tr ++ [Settle j o]) = Some s' ∧
           started s' = started s ∧ jobQueue s' = []).
Proof.
  intros He. pose proof (reachable_inv _ _ He) as Hi.
  destruct (inv_fifo s Hi) as [Hst Hq].
  split; [done|]. split; [done|]. split; [|split; [|split]].
  - intros A B HAB HB. rewrite Hst in HB. apply elem_of_seq in HB.
    exists A, B. split; [done|]. rewrite Hst.
    split; apply lookup_seq; lia.
  - by apply inv_waiting_running.
  - intros j o oldest waiting Hj Hqueue.
    destruct (take_out_elem _ _ Hj) as [rest Ht].
    rewrite (exec_snoc _ _ _ _ He). cbn [step]. unfold settle.
    rewrite Ht. fields. rewrite Hqueue.
    eexists _, rest. split; [reflexivity|]. split; [reflexivity|].
    split; [done|]. fields. split; [done|]. split; [done|]. split; [done|].
    intros w Hw. rewrite Hqueue in Hq. simpl in Hq.
    injection Hq as Hold Hwait. rewrite Hwait in Hw.
    apply elem_of_seq in Hw. lia.
  - intros j o Hj Hqueue.
    destruct (take_out_elem _ _ Hj) as [rest Ht].
    rewrite (exec_snoc _ _ _ _ He). cbn [step]. unfold settle.
    rewrite Ht. fields. rewrite Hqueue.
    eexists. split; [reflexivity|]. fields. done.
Qed.

(** C3: whatever way the promise of a running job settles, and in
    particular after the [error] callback of a handler, its slot is freed
    and the oldest waiting job is started; of two submitted jobs the
    second one runs after the first one has failed; and settling the
    running jobs one after the other, successes or failures alike, ends
    with every submitted job answered. *)
Theorem failed_job_frees_slot (tr : list event) (s : state) :
  exec N init tr = Some s →
  (∀ fn headersSent message,
     (Routes.callbacks fn headersSent (Routes.Error message)).2 = Fulfilled) ∧
  (∀ j o, j ∈ pending s →
     ∃ s', settle j o s = Some s' ∧ (j ∉ pending s') ∧
       (match jobQueue s with
        | [] => activeJobs s' = activeJobs s - 1 ∧ jobQueue s' = []
        | next :: waiting =>
            next ∈ pending s' ∧ jobQueue s' = waiting ∧
            activeJobs s' = activeJobs s
        end)) ∧
  (∀ o, ∃ s', exec N init [Submit; Submit; Settle 0%nat o] = Some s' ∧
              1%nat ∈ pending s' ∧ started s' = [0%nat; 1%nat]) ∧
  (∀ outcome, ∃ s',
     exec N s (drain outcome (length (pending s) + length (jobQueue s)) s)
       = Some s' ∧
     pending s' = [] ∧ jobQueue s' = [] ∧
     (delivered s').*1 ≡ₚ seq 0 (submissions tr)).
Proof.
  intros He. pose proof (reachable_inv _ _ He) as Hi.
  split; [done|]. split; [|split].
  - intros j o Hj. destruct (take_out_elem _ _ Hj) as [rest Ht].
    assert (∃ s', settle j o s = Some s') as [s' Hs'].
    { unfold settle. rewrite Ht. fields. destruct (jobQueue s); eauto. }
    exists s'. split; [done|].
    pose proof (inv_settle _ _ _ _ Hi Hs') as Hi'.
    split.
    + intros Hin. pose proof (inv_NoDup_started _ Hi') as Hnd.
      rewrite (inv_account _ _ Hi') in Hnd.
      apply NoDup_app in Hnd as (_ & Hdis & _).
      apply (Hdis j); [|done].
      revert Hs'. unfold settle. rewrite Ht. fields.
      destruct (jobQueue s); intros [= <-]; fields;
        rewrite fmap_app; apply elem_of_app; right; apply list_elem_of_singleton;
        done.
    + revert Hs'. unfold settle. rewrite Ht. fields.
      destruct (jobQueue s) as [|next waiting]; intros [= <-]; fields.
      * done.
      * split; [set_solver|]. split; [done|lia].
  - intros o. unfold exec, step.
    assert (enqueueJob N init
            = mkState 1 [] [0%nat] [0%nat] [] 1 [0; 1]) as ->.
    { unfold enqueueJob. cbn -[Z.ltb].
      destruct (Z.ltb_spec 0 N); [done|lia]. }
    unfold enqueueJob. cbn -[Z.ltb].
    destruct (Z.ltb_spec 1 N); (eexists; split; [reflexivity|]); cbn;
      (split; [|done]); repeat constructor.
  - intros outcome.
    destruct (drain_completes outcome _ s Hi (le_n _))
      as (s' & Hex & Hp & Hq & _ & _ & Hd).
    exists s'. rewrite <- (reachable_submitted _ _ He). done.
Qed.

End QueueFacts.

Lemma queue_bound_and_completion_witness :
  1 ≤ Queue.MAX_CONCURRENT_JOBS ∧
  Queue.exec Queue.MAX_CONCURRENT_JOBS Queue.init queue_demo_trace
    = Some queue_demo_state ∧
  Forall (λ v, 0 ≤ v ≤ Queue.MAX_CONCURRENT_JOBS)
    (Queue.counter_log queue_demo_state) ∧
  Queue.activeJobs queue_demo_state
    = Z.of_nat (length (Queue.pending queue_demo_state)) ∧
  Queue.activeJobs queue_demo_state ≤ Queue.MAX_CONCURRENT_JOBS ∧
  (Queue.pending queue_demo_state = [] →
     Queue.jobQueue queue_demo_state = [] ∧
     length (Queue.delivered queue_demo_state)
       = Queue.submissions queue_demo_trace ∧
     (Queue.delivered queue_demo_state).*1
       ≡ₚ seq 0 (Queue.submissions queue_demo_trace)).
Proof.
  split; [unfold Queue.MAX_CONCURRENT_JOBS; lia|].
  split; [reflexivity|].
  apply (queue_bound_and_completion Queue.MAX_CONCURRENT_JOBS).
  - unfold Queue.MAX_CONCURRENT_JOBS; lia.
  - reflexivity.
Defined.

Lemma fifo_release_witness :
  1 ≤ Queue.MAX_CONCURRENT_JOBS ∧
  Queue.exec Queue.MAX_CONCURRENT_JOBS Queue.init [Queue.Submit; Queue.Submit]
    = Some queue_busy_state ∧
  0%nat ∈ Queue.pending queue_busy_state ∧
  Queue.jobQueue queue_busy_state = [1%nat] ∧
  ∀ o, ∃ s' rest,
    Queue.exec Queue.MAX_CONCURRENT_JOBS Queue.init
      ([Queue.Submit; Queue.Submit] ++ [Queue.Settle 0%nat o]) = Some s' ∧
    Queue.settle 0%nat o queue_busy_state = Some s' ∧
    Queue.take_out 0%nat (Queue.pending queue_busy_state) = Some rest ∧
    Queue.jobQueue s' = [] ∧
    Queue.started s' = Queue.started queue_busy_state ++ [1%nat] ∧
    Queue.pending s' = rest ++ [1%nat] ∧
    (∀ w, w ∈ [] → (1 < w)%nat).
Proof.
  split; [unfold Queue.MAX_CONCURRENT_JOBS; lia|].
  split; [reflexivity|].
  split; [apply list_elem_of_here|].
  split; [reflexivity|].
  intros o.
  exact (proj1 (proj2 (proj2 (proj2 (proj2
           (fifo_release Queue.MAX_CONCURRENT_JOBS
              ltac:(unfold Queue.MAX_CONCURRENT_JOBS; lia)
              [Queue.Submit; Queue.Submit] queue_busy_state eq_refl)))))
           0%nat o 1%nat [] (list_elem_of_here _ _) eq_refl).
Defined.

(** The release on the run of the module: after three submissions job 0
    runs and jobs 1 and 2 wait; when job 0 fails job 1 starts and job 2
    keeps waiting, as [queue_after_failure] records. *)
Example queue_release_sample :
  Queue.exec Queue.MAX_CONCURRENT_JOBS Queue.init
    [Queue.Submit; Queue.Submit; Queue.Submit;
     Queue.Settle 0%nat Queue.Rejected]
  = Some queue_after_failure.
Proof. reflexivity. Qed.

Lemma failed_job_frees_slot_witness :
  1 ≤ Queue.MAX_CONCURRENT_JOBS ∧
  Queue.exec Queue.MAX_CONCURRENT_JOBS Queue.init [Queue.Submit; Queue.Submit]
    = Some queue_busy_state ∧
  ∀ o, ∃ s',
    Queue.exec Queue.MAX_CONCURRENT_JOBS Queue.init
      [Queue.Submit; Queue.Submit; Queue.Settle 0%nat o] = Some s' ∧
    1%nat ∈ Queue.pending s' ∧ Queue.started s' = [0%nat; 1%nat].
Proof.
  split; [unfold Queue.MAX_CONCURRENT_JOBS; lia|].
  split; [reflexivity|].
  apply (failed_job_frees_slot Queue.MAX_CONCURRENT_JOBS
           ltac:(unfold Queue.MAX_CONCURRENT_JOBS; lia)
           [Queue.Submit; Queue.Submit] queue_busy_state eq_refl).
Defined.

(** ** The eviction sweep *)

Section SweepFacts.
Import Sweep.

Variable now : Z.

Lemma swept_idem nd nd' : swept now nd = Some nd' → swept now nd' = Some nd'.
Proof.
  unfold swept. destruct (removable now nd) eqn:E; [done|].
  intros [= <-]. by rewrite E.
Qed.

Lemma bind_swept_idem (o : option Fs.node) :
  (o ≫= swept now) ≫= swept now = o ≫= swept now.
Proof.
  destruct o as [nd|]; simpl; [|done].
  destruct (swept now nd) as [nd'|] eqn:E; simpl; [|done].
  by apply swept_idem in E.
Qed.

(** One iteration of the loop changes the listed entry only. *)
Lemma cleanup_file_lookup (m : gmap string Fs.node) (c : Z) (file k : string) :
  (cleanup_file now (m, c) file).1 !! k
  = if decide (k = file) then m !! k ≫= swept now else m !! k.
Proof.
  unfold cleanup_file, Fs.statSync, Fs.unlinkSync, swept, removable, expired.
  destruct (m !! file) as [[f mt sz st ul]|] eqn:Hf; simpl.
  - destruct st, f, (now - mt >? MAX_FILE_AGE_MS) eqn:Ha, ul; simpl;
      rewrite ?Ha; simpl; case_decide as Hk; subst;
      rewrite ?lookup_delete_eq, ?Hf; rewrite ?lookup_delete_ne by done;
      simpl; rewrite ?Ha; done.
  - case_decide as Hk; [|done]. subst k. by rewrite Hf.
Qed.

Lemma cleanup_fold_lookup (files : list string) (k : string) :
  ∀ acc : gmap string Fs.node * Z,
    (fold_left (cleanup_file now) files acc).1 !! k
    = if decide (k ∈ files) then acc.1 !! k ≫= swept now else acc.1 !! k.
Proof.
  induction files as [|f files IH]; intros [m c]; cbn [fold_left].
  - rewrite decide_False; [done|]. apply not_elem_of_nil.
  - rewrite IH. rewrite cleanup_file_lookup.
    destruct (decide (k = f)) as [->|Hne].
    + rewrite (decide_True (P := f ∈ f :: files)) by (left).
      case_decide; [apply bind_swept_idem|done].
    + case_decide as Hin.
      * rewrite decide_True; [done|by right].
      * rewrite decide_False; [done|].
        intros [?|?]%elem_of_cons; done.
Qed.

(** The whole loop: every entry of the directory is replaced by what the
    sweep leaves of it, independently of the other entries. *)
Lemma cleanupOldFiles_lookup (m : gmap string Fs.node) :
  ∃ m', (cleanupOldFiles now (Some m)).1 = Some m' ∧
        ∀ k, m' !! k = m !! k ≫= swept now.
Proof.
  unfold cleanupOldFiles. simpl.
  destruct (fold_left (cleanup_file now) (map_to_list m).*1 (m, 0))
    as [m' cleaned] eqn:E.
  exists m'. split; [done|]. intros k.
  change m' with ((m', cleaned).1). rewrite <- E, cleanup_fold_lookup. simpl.
  case_decide as Hin; [done|].
  destruct (m !! k) as [nd|] eqn:Hk; [|done].
  exfalso. apply Hin. apply list_elem_of_fmap. exists (k, nd).
  split; [done|]. by apply elem_of_map_to_list.
Qed.

End SweepFacts.

(** C9: one sweep cycle turns every entry of each of the two directories
    into what [swept] leaves of it: a regular file whose age exceeds the
    retention window, and on which neither [statSync] nor [unlinkSync]
    throws, is absent afterwards; an entry whose age does not exceed the
    window is untouched; an entry on which one of the two calls throws
    stays, and the other entries are swept all the same; no entry
    appears. *)
Theorem sweep_evicts_expired (now_u now_p : Z) (fs : Fs.t) (d : Fs.dir_name)
    (m : gmap string Fs.node) :
  Fs.get d fs = Some m →
  ∃ m', Fs.get d (Sweep.sweep now_u now_p fs) = Some m' ∧
    (∀ name, m' !! name = m !! name ≫= Sweep.swept (Sweep.clock now_u now_p d)) ∧
    (∀ name nd, m !! name = Some nd →
       Fs.isFile nd = true →
       Sweep.clock now_u now_p d - Fs.mtimeMs nd > Sweep.MAX_FILE_AGE_MS →
       Fs.stat_throws nd = false → Fs.unlink_throws nd = false →
       m' !! name = None) ∧
    (∀ name nd, m !! name = Some nd →
       Sweep.clock now_u now_p d - Fs.mtimeMs nd ≤ Sweep.MAX_FILE_AGE_MS →
       m' !! name = Some nd) ∧
    (∀ name nd, m !! name = Some nd →
       Fs.stat_throws nd = true ∨ Fs.unlink_throws nd = true →
       m' !! name = Some nd).
Proof.
  intros Hd.
  assert (Fs.get d (Sweep.sweep now_u now_p fs)
          = (Sweep.cleanupOldFiles (Sweep.clock now_u now_p d) (Some m)).1)
    as Hget.
  { rewrite <- Hd. unfold Sweep.sweep. destruct d, fs; reflexivity. }
  destruct (cleanupOldFiles_lookup (Sweep.clock now_u now_p d) m)
    as (m' & Hm' & Hlook).
  exists m'. split; [by rewrite Hget|]. split; [done|].
  repeat split; intros name nd Hnd.
  - intros Hfile Hage Hs Hu. rewrite Hlook, Hnd. simpl.
    unfold Sweep.swept, Sweep.removable, Sweep.expired.
    rewrite Hfile, Hs, Hu.
    destruct (Z.gtb_spec (Sweep.clock now_u now_p d - Fs.mtimeMs nd)
                Sweep.MAX_FILE_AGE_MS); [done|lia].
  - intros Hage. rewrite Hlook, Hnd. simpl.
    unfold Sweep.swept, Sweep.removable, Sweep.expired.
    destruct (Z.gtb_spec (Sweep.clock now_u now_p d - Fs.mtimeMs nd)
                Sweep.MAX_FILE_AGE_MS); [lia|].
    by rewrite andb_false_r.
  - intros Hthrow. rewrite Hlook, Hnd. simpl.
    unfold Sweep.swept, Sweep.removable.
    destruct Hthrow as [-> | ->]; simpl; by rewrite ?andb_false_r.
Qed.

Lemma sweep_evicts_expired_witness :
  Fs.get Fs.UPLOADS_DIR sweep_demo_fs = Some sweep_demo_uploads ∧
  ∃ m', Fs.get Fs.UPLOADS_DIR (Sweep.sweep 2000000 2000001 sweep_demo_fs)
        = Some m' ∧
        m' !! "old.mp4"%string = None ∧
        m' !! "new.mp4"%string = sweep_demo_uploads !! "new.mp4"%string ∧
        m' !! "busy.mp4"%string = sweep_demo_uploads !! "busy.mp4"%string.
Proof.
  split; [reflexivity|].
  destruct (sweep_evicts_expired 2000000 2000001 sweep_demo_fs
              Fs.UPLOADS_DIR sweep_demo_uploads eq_refl)
    as (m' & Hm' & Hall & _).
  exists m'. split; [exact Hm'|].
  rewrite !Hall. repeat split; vm_compute; reflexivity.
Defined.

(** ** Range streaming *)

Section StreamFacts.
Import Stdlib.Strings.String.
Import Stream.
Local Open Scope string_scope.
Local Open Scope Z_scope.

Lemma digit_of_digit_char (d : Z) :
  0 ≤ d < 10 → digit_of (digit_char d) = Some d.
Proof.
  intros Hd.
  assert (d = 0 ∨ d = 1 ∨ d = 2 ∨ d = 3 ∨ d = 4 ∨ d = 5 ∨ d = 6 ∨ d = 7
          ∨ d = 8 ∨ d = 9) as Hc by lia.
  repeat (destruct Hc as [-> | Hc]; [reflexivity|]). by subst.
Qed.

Lemma read_digits_cons (d a : Z) (s : string) :
  0 ≤ d < 10 →
  read_digits (String (digit_char d) s) a = read_digits s (10 * a + d).
Proof. intros Hd. cbn [read_digits]. by rewrite digit_of_digit_char. Qed.

(** Reading back the digits that were written gives the number. *)
Lemma read_render_digits (fuel : nat) : ∀ (n : Z) (acc : string),
  0 ≤ n < 10 ^ Z.of_nat fuel →
  read_digits (render_digits fuel n acc) 0 = read_digits acc n.
Proof.
  induction fuel as [|fuel IH]; intros n acc Hn.
  - simpl in *. assert (n = 0) as -> by lia. done.
  - cbn [render_digits].
    assert (0 ≤ n mod 10 < 10) as Hmod by (apply Z.mod_pos_bound; lia).
    assert (n = 10 * (n / 10) + n mod 10) as Hdiv by (apply Z.div_mod; lia).
    destruct (Z.eqb_spec (n / 10) 0) as [H0|H0].
    + rewrite read_digits_cons by done. f_equal. lia.
    + rewrite IH.
      * rewrite read_digits_cons by done. f_equal. lia.
      * rewrite Nat2Z.inj_succ, Z.pow_succ_r in Hn by lia.
        split; [apply Z.div_pos; lia|].
        apply Z.div_lt_upper_bound; lia.
Qed.

Lemma render_digits_only (fuel : nat) : ∀ (n : Z) (acc : string),
  digits_only acc = true → digits_only (render_digits fuel n acc) = true.
Proof.
  induction fuel as [|fuel IH]; intros n acc Hacc; cbn [render_digits]; [done|].
  assert (digits_only (String (digit_char (n mod 10)) acc) = true) as Hacc'.
  { cbn [digits_only]. rewrite digit_of_digit_char
      by (apply Z.mod_pos_bound; lia).
    rewrite bool_decide_eq_true_2 by eauto. done. }
  destruct (n / 10 =? 0); [done|]. by apply IH.
Qed.

Lemma render_digits_start (fuel : nat) : ∀ (n : Z) (acc : string),
  starts_with_digit acc = true →
  starts_with_digit (render_digits fuel n acc) = true.
Proof.
  induction fuel as [|fuel IH]; intros n acc Hacc; cbn [render_digits]; [done|].
  assert (starts_with_digit (String (digit_char (n mod 10)) acc) = true)
    as Hacc'.
  { cbn [starts_with_digit]. rewrite digit_of_digit_char
      by (apply Z.mod_pos_bound; lia).
    by rewrite bool_decide_eq_true_2 by eauto. }
  destruct (n / 10 =? 0); [done|]. by apply IH.
Qed.

(** The fuel of [render_nat] covers all the digits. *)
Lemma render_nat_fuel (n : Z) :
  0 ≤ n → n < 10 ^ Z.of_nat (S (Z.to_nat (Z.log2 n))).
Proof.
  intros Hn. rewrite Nat2Z.inj_succ, Z2Nat.id by apply Z.log2_nonneg.
  destruct (Z.eq_dec n 0) as [->|Hne]; [done|].
  pose proof (Z.log2_spec n ltac:(lia)) as [_ Hup].
  eapply Z.lt_le_trans; [exact Hup|].
  apply Z.pow_le_mono_l. pose proof (Z.log2_nonneg n). lia.
Qed.

Lemma render_nat_digits (n : Z) : digits_only (render_nat n) = true.
Proof. by apply render_digits_only. Qed.

Lemma render_nat_start (n : Z) : starts_with_digit (render_nat n) = true.
Proof.
  unfold render_nat. cbn [render_digits].
  assert (starts_with_digit (String (digit_char (n mod 10)) EmptyString) = true) as H.
  { cbn [starts_with_digit]. rewrite digit_of_digit_char
      by (apply Z.mod_pos_bound; lia).
    by rewrite bool_decide_eq_true_2 by eauto. }
  destruct (n / 10 =? 0); [done|]. by apply render_digits_start.
Qed.

Lemma read_render_nat (n : Z) : 0 ≤ n → read_digits (render_nat n) 0 = n.
Proof.
  intros Hn. unfold render_nat.
  rewrite read_render_digits; [done|].
  split; [done|by apply render_nat_fuel].
Qed.

(** A string that starts with a digit has no white space or sign to
    skip: [parseInt] reads its digits. *)
Lemma parseInt_digit_start (c : ascii) (s : string) :
  is_Some (digit_of c) →
  parseInt (String c s) = Some (read_digits (String c s) 0).
Proof.
  intros [d Hd].
  destruct c as [[] [] [] [] [] [] [] []];
    try (vm_compute in Hd; discriminate);
    unfold parseInt; cbn [skip_whitespace];
    match goal with
    | |- context [is_whitespace ?c] => change (is_whitespace c) with false
    end; cbv iota beta;
    match goal with
    | |- context [starts_with_digit ?x] =>
        change (starts_with_digit x) with true
    end; cbv iota beta; by rewrite Z.mul_1_l.
Qed.

Lemma digit_not_dash (c : ascii) :
  is_Some (digit_of c) → Ascii.eqb c "-" = false.
Proof.
  intros [d Hd].
  destruct c as [[] [] [] [] [] [] [] []];
    try (vm_compute in Hd; discriminate); reflexivity.
Qed.

Lemma parseInt_render_nat (n : Z) : 0 ≤ n → parseInt (render_nat n) = Some n.
Proof.
  intros Hn. pose proof (render_nat_start n) as Hs.
  pose proof (read_render_nat n Hn) as Hr.
  destruct (render_nat n) as [|c s]; [done|].
  cbn [starts_with_digit] in Hs. apply bool_decide_eq_true in Hs.
  rewrite parseInt_digit_start by done. by rewrite Hr.
Qed.

Lemma render_nat_nonempty (n : Z) : String.eqb (render_nat n) EmptyString = false.
Proof.
  pose proof (render_nat_start n) as Hs.
  by destruct (render_nat n).
Qed.

Lemma split_cons (sep c : ascii) (s : string) :
  split sep (String c s)
  = if Ascii.eqb c sep then EmptyString :: split sep s
    else match split sep s with
         | h :: t => String c h :: t
         | [] => [String c EmptyString]
         end.
Proof. reflexivity. Qed.

Lemma split_digits_dash (s1 s2 : string) :
  digits_only s1 = true →
  split "-" (s1 +:+ String "-" s2) = s1 :: split "-" s2.
Proof.
  induction s1 as [|c s1 IH]; intros Hd.
  - reflexivity.
  - cbn [digits_only] in Hd. apply andb_prop in Hd as [Hc Hs].
    apply bool_decide_eq_true in Hc.
    change (String c s1 +:+ String "-" s2)
      with (String c (s1 +:+ String "-" s2)).
    rewrite split_cons, digit_not_dash by done. by rewrite IH.
Qed.

Lemma split_digits (s : string) : digits_only s = true → split "-" s = [s].
Proof.
  induction s as [|c s IH]; intros Hd.
  - reflexivity.
  - cbn [digits_only] in Hd. apply andb_prop in Hd as [Hc Hs].
    apply bool_decide_eq_true in Hc.
    rewrite split_cons, digit_not_dash by done. by rewrite IH.
Qed.

Lemma substring_all (s : string) : substring 0 (String.length s) s = s.
Proof. induction s as [|c s IH]; simpl; [done|by rewrite IH]. Qed.

Lemma replace_first_unfold (pat repl s : string) :
  replace_first pat repl s
  = if String.prefix pat s then
      repl +:+ substring (String.length pat)
                 (String.length s - String.length pat) s
    else match s with
         | String c s' => String c (replace_first pat repl s')
         | EmptyString => EmptyString
         end.
Proof. destruct s; reflexivity. Qed.

Lemma replace_first_bytes (r : string) :
  replace_first "bytes=" EmptyString ("bytes=" +:+ r) = r.
Proof.
  rewrite replace_first_unfold.
  assert (String.prefix "bytes=" ("bytes=" +:+ r) = true) as ->
    by (destruct r; reflexivity).
  change (substring (String.length "bytes=")
            (String.length ("bytes=" +:+ r) - String.length "bytes=")
            ("bytes=" +:+ r))
    with (substring 0 (String.length r - 0) r).
  rewrite Nat.sub_0_r. apply substring_all.
Qed.

Lemma render_nonneg (n : Z) : 0 ≤ n → render (Some n) = render_nat n.
Proof.
  intros Hn. unfold render. destruct (Z.ltb_spec n 0); [lia|done].
Qed.

Lemma range_parts (a b : Z) :
  0 ≤ a → 0 ≤ b →
  split "-" (replace_first "bytes=" EmptyString (range_header a b))
  = [render_nat a; render_nat b].
Proof.
  intros Ha Hb. unfold range_header.
  rewrite replace_first_bytes, !render_nonneg by done.
  change ("-" +:+ render_nat b) with (String "-" (render_nat b)).
  rewrite split_digits_dash by apply render_nat_digits.
  by rewrite split_digits by apply render_nat_digits.
Qed.

Lemma open_range_parts (a : Z) :
  0 ≤ a →
  split "-" (replace_first "bytes=" EmptyString (open_range_header a))
  = [render_nat a; EmptyString].
Proof.
  intros Ha. unfold open_range_header.
  rewrite replace_first_bytes, !render_nonneg by done.
  change (render_nat a +:+ "-") with (render_nat a +:+ String "-" EmptyString).
  by rewrite split_digits_dash by apply render_nat_digits.
Qed.

Lemma serve_found (m : gmap string Fs.node) (filename : string)
    (nd : Fs.node) (range : option string) :
  m !! filename = Some nd → Fs.stat_throws nd = false →
  serve (Some m) filename range
  = let fileSize := Fs.size nd in
    if Js.truthy_string range then
      let parts :=
        split "-" (replace_first "bytes=" EmptyString
                     (default EmptyString range)) in
      let start := match parts !! 0%nat with
                   | Some p => parseInt p
                   | None => None
                   end in
      let end_ := match parts !! 1%nat with
                  | Some p =>
                      if negb (String.eqb p EmptyString)
                      then parseInt p
                      else Some (fileSize - 1)
                  | None => Some (fileSize - 1)
                  end in
      if createReadStream_throws start end_ then Thrown
      else
        Piped 206
          [("Content-Range",
            HText ("bytes " +:+ render start +:+ "-" +:+ render end_
                   +:+ "/" +:+ render (Some fileSize)));
           ("Accept-Ranges", HText "bytes");
           ("Content-Length", HNumber (plus (minus end_ start) (Some 1)));
           ("Content-Type", HText "video/mp4")]
          (Some (start, end_))
    else
      Piped 200
        [("Content-Length", HNumber (Some fileSize));
         ("Content-Type", HText "video/mp4")]
        None.
Proof.
  intros Hm Hs. unfold serve, Fs.existsSync, Fs.statSync.
  rewrite Hm, Hs. rewrite bool_decide_eq_true_2 by eauto. reflexivity.
Qed.

(** [createReadStream] accepts exactly the ordered pairs of offsets. *)
Lemma createReadStream_throws_spec (start end_ : num) :
  createReadStream_throws start end_ = false ↔
  ∃ a b, start = Some a ∧ end_ = Some b ∧
         0 ≤ a ∧ a ≤ b ∧ b ≤ MAX_SAFE_INTEGER.
Proof.
  unfold createReadStream_throws, valid_offset. split.
  - destruct start as [a|], end_ as [b|]; cbn; try done.
    + intros H. exists a, b. repeat (split; [done|]).
      destruct (Z.leb_spec 0 a), (Z.leb_spec a MAX_SAFE_INTEGER),
        (Z.leb_spec 0 b), (Z.leb_spec b MAX_SAFE_INTEGER),
        (Z.ltb_spec b a); cbn in H; try done; lia.
    + by rewrite orb_true_r.
  - intros (a & b & -> & -> & Ha & Hab & Hb).
    destruct (Z.leb_spec 0 a), (Z.leb_spec a MAX_SAFE_INTEGER),
      (Z.leb_spec 0 b), (Z.leb_spec b MAX_SAFE_INTEGER),
      (Z.ltb_spec b a); cbn; try done; lia.
Qed.

Lemma createReadStream_accepts (a b : Z) :
  0 ≤ a → a ≤ b → b ≤ MAX_SAFE_INTEGER →
  createReadStream_throws (Some a) (Some b) = false.
Proof. intros. apply createReadStream_throws_spec. eauto 10. Qed.

Lemma createReadStream_rejects (a b : Z) :
  b < a ∨ MAX_SAFE_INTEGER < b ∨ b < 0 →
  createReadStream_throws (Some a) (Some b) = true.
Proof.
  intros H. apply not_false_iff_true. intros Hf.
  apply createReadStream_throws_spec in Hf
    as (a' & b' & [= <-] & [= <-] & ? & ? & ?). lia.
Qed.

End StreamFacts.

(** The string functions on inputs outside the well-formed ranges: a
    suffix range has no start, and digits are read up to the first other
    character. *)
Example parseInt_samples :
  Stream.parseInt " 12abc" = Some 12 ∧
  Stream.parseInt "-7" = Some (-7) ∧
  Stream.parseInt EmptyString = None ∧
  Stream.split "-" (Stream.replace_first "bytes=" EmptyString "bytes=-500")
  = [EmptyString; "500"%string] ∧
  Stream.render (Stream.parseInt EmptyString) = "NaN"%string.
Proof. repeat split. Qed.

(** C6: for an artifact of [total] bytes (a safe integer), the header
    [bytes=a-b] with [0 ≤ a ≤ b < total] is answered with status 206,
    [Content-Range: bytes a-b/total] and [Content-Length: b-a+1], the
    header [bytes=a-] as if [b] were [total-1], and a request without a
    [Range] header with status 200 and [Content-Length: total]. *)
Theorem range_request (m : gmap string Fs.node) (filename : string)
    (nd : Fs.node) (total a b : Z) :
  m !! filename = Some nd → Fs.stat_throws nd = false →
  Fs.size nd = total → total ≤ Stream.MAX_SAFE_INTEGER →
  0 ≤ a → a ≤ b → b < total →
  Stream.serve (Some m) filename (Some (Stream.range_header a b))
  = Stream.Piped 206
      [("Content-Range"%string,
        Stream.HText (Stream.content_range a b total));
       ("Accept-Ranges"%string, Stream.HText "bytes");
       ("Content-Length"%string, Stream.HNumber (Some (b - a + 1)));
       ("Content-Type"%string, Stream.HText "video/mp4")]
      (Some (Some a, Some b))
  ∧ Stream.serve (Some m) filename (Some (Stream.open_range_header a))
  = Stream.Piped 206
      [("Content-Range"%string,
        Stream.HText (Stream.content_range a (total - 1) total));
       ("Accept-Ranges"%string, Stream.HText "bytes");
       ("Content-Length"%string, Stream.HNumber (Some (total - 1 - a + 1)));
       ("Content-Type"%string, Stream.HText "video/mp4")]
      (Some (Some a, Some (total - 1)))
  ∧ Stream.serve (Some m) filename None
  = Stream.Piped 200
      [("Content-Length"%string, Stream.HNumber (Some total));
       ("Content-Type"%string, Stream.HText "video/mp4")]
      None.
Proof.
  intros Hm Hs Hsize Hsafe Ha Hab Hb.
  rewrite !(serve_found m filename nd) by done. rewrite Hsize.
  split; [|split].
  - cbv zeta.
    assert (Js.truthy_string (Some (Stream.range_header a b)) = true) as ->
      by reflexivity.
    cbn [from_option id]. rewrite range_parts by lia. cbn [lookup list_lookup].
    rewrite render_nat_nonempty. cbn [negb].
    rewrite !parseInt_render_nat by lia.
    rewrite createReadStream_accepts by lia. reflexivity.
  - cbv zeta.
    assert (Js.truthy_string (Some (Stream.open_range_header a)) = true) as ->
      by reflexivity.
    cbn [from_option id]. rewrite open_range_parts by lia. cbn [lookup list_lookup].
    rewrite !parseInt_render_nat by lia.
    change (negb (String.eqb EmptyString EmptyString)) with false. cbv iota.
    rewrite createReadStream_accepts by lia. reflexivity.
  - reflexivity.
Qed.

Lemma range_request_witness :
  stream_demo_uploads !! "a.mp4"%string
    = Some (Fs.mkNode true 0 1000 false false) ∧
  1000 ≤ Stream.MAX_SAFE_INTEGER ∧ 0 ≤ 0 ∧ 0 ≤ 99 ∧ 99 < 1000 ∧
  Stream.serve (Some stream_demo_uploads) "a.mp4" (Some "bytes=0-99"%string)
  = Stream.Piped 206
      [("Content-Range"%string, Stream.HText "bytes 0-99/1000");
       ("Accept-Ranges"%string, Stream.HText "bytes");
       ("Content-Length"%string, Stream.HNumber (Some 100));
       ("Content-Type"%string, Stream.HText "video/mp4")]
      (Some (Some 0, Some 99))
  ∧ Stream.serve (Some stream_demo_uploads) "a.mp4" None
  = Stream.Piped 200
      [("Content-Length"%string, Stream.HNumber (Some 1000));
       ("Content-Type"%string, Stream.HText "video/mp4")]
      None.
Proof.
  split; [reflexivity|]. split; [vm_compute; discriminate|].
  split; [lia|]. split; [lia|]. split; [lia|].
  pose proof (range_request stream_demo_uploads "a.mp4"
                (Fs.mkNode true 0 1000 false false) 1000 0 99
                eq_refl eq_refl eq_refl
                ltac:(vm_compute; discriminate)
                ltac:(lia) ltac:(lia) ltac:(lia)) as (H1 & _ & H3).
  split; [exact H1|exact H3].
Defined.

(** ** Text overlay: escaping *)

Section EscapeFacts.
Import Routes.

Lemma replace_all_app (c : N) (r a b : units) :
  replace_all c r (a ++ b) = replace_all c r a ++ replace_all c r b.
Proof. unfold replace_all. apply bind_app. Qed.

Lemma escapedText_app (a b : units) :
  escapedText (a ++ b) = escapedText a ++ escapedText b.
Proof. unfold escapedText. by rewrite !replace_all_app. Qed.

Lemma replace_all_one (c x : N) (r : units) :
  replace_all c r [x] = if N.eqb x c then r else [x].
Proof. unfold replace_all. simpl. by rewrite app_nil_r. Qed.

(** The six passes act as one pass: no pass sees what an earlier one
    produced as something to replace. *)
Lemma escapedText_one (x : N) : escapedText [x] = escape_unit x.
Proof.
  unfold escapedText, escape_unit.
  rewrite (replace_all_one BACKSLASH).
  destruct (N.eqb_spec x BACKSLASH) as [->|?]; [reflexivity|].
  rewrite (replace_all_one APOSTROPHE).
  destruct (N.eqb_spec x APOSTROPHE) as [->|?]; [reflexivity|].
  rewrite (replace_all_one COLON).
  destruct (N.eqb_spec x COLON) as [->|?]; [reflexivity|].
  rewrite (replace_all_one PERCENT).
  destruct (N.eqb_spec x PERCENT) as [->|?]; [reflexivity|].
  rewrite (replace_all_one LBRACKET).
  destruct (N.eqb_spec x LBRACKET) as [->|?]; [reflexivity|].
  rewrite (replace_all_one RBRACKET).
  destruct (N.eqb_spec x RBRACKET) as [->|?]; [reflexivity|].
  reflexivity.
Qed.

Lemma escapedText_cons (x : N) (t : units) :
  escapedText (x :: t) = escape_unit x ++ escapedText t.
Proof.
  change (x :: t) with ([x] ++ t). by rewrite escapedText_app, escapedText_one.
Qed.

Lemma neutralized_escape_unit (x : N) (r : units) :
  neutralized (escape_unit x ++ r) = neutralized r.
Proof.
  unfold escape_unit.
  destruct (N.eqb_spec x BACKSLASH) as [->|H1]; [reflexivity|].
  destruct (N.eqb_spec x APOSTROPHE) as [->|H2]; [reflexivity|].
  destruct (N.eqb_spec x COLON) as [->|H3]; [reflexivity|].
  destruct (N.eqb_spec x PERCENT) as [->|H4]; [reflexivity|].
  destruct (N.eqb_spec x LBRACKET) as [->|H5]; [reflexivity|].
  destruct (N.eqb_spec x RBRACKET) as [->|H6]; [reflexivity|].
  cbn [app neutralized]. unfold special.
  apply N.eqb_neq in H1, H2, H3, H4, H5, H6.
  by rewrite H1, H2, H3, H4, H5, H6.
Qed.

Lemma literal_escape_unit (x : N) (r : units) :
  literal (escape_unit x ++ r)
  = (if N.eqb x APOSTROPHE then RIGHT_QUOTE else x) :: literal r.
Proof.
  unfold escape_unit.
  destruct (N.eqb_spec x BACKSLASH) as [->|H1]; [reflexivity|].
  destruct (N.eqb_spec x APOSTROPHE) as [->|H2]; [reflexivity|].
  destruct (N.eqb_spec x COLON) as [->|H3]; [reflexivity|].
  destruct (N.eqb_spec x PERCENT) as [->|H4]; [reflexivity|].
  destruct (N.eqb_spec x LBRACKET) as [->|H5]; [reflexivity|].
  destruct (N.eqb_spec x RBRACKET) as [->|H6]; [reflexivity|].
  cbn [app literal].
  apply N.eqb_neq in H1, H4. by rewrite H1, H4.
Qed.

Lemma apostrophe_not_in_escape_unit (x : N) : APOSTROPHE ∉ escape_unit x.
Proof.
  unfold escape_unit.
  repeat case_match; try (intros Hin; repeat
    (apply elem_of_cons in Hin as [Hin|Hin]; [discriminate Hin|]);
    by apply elem_of_nil in Hin).
  intros Hin. apply list_elem_of_singleton in Hin. subst x.
  discriminate.
Qed.

Lemma apostrophe_replaced (x : N) (t : units) :
  replace_all APOSTROPHE [RIGHT_QUOTE] (x :: t)
  = (if N.eqb x APOSTROPHE then RIGHT_QUOTE else x)
    :: replace_all APOSTROPHE [RIGHT_QUOTE] t.
Proof. unfold replace_all. cbn [mbind list_bind]. by destruct (N.eqb x APOSTROPHE). Qed.

End EscapeFacts.

(** C5: for every overlay text, read from the left the escaped text has
    each backslash, colon and square bracket behind a backslash and each
    percent sign doubled, it holds no apostrophe at all (each one became
    a right single quotation mark), and the characters it stands for are
    those of the text, apostrophes replaced. *)
Theorem escapedText_neutralizes (text : Routes.units) :
  Routes.neutralized (Routes.escapedText text) = true ∧
  (Routes.APOSTROPHE ∉ Routes.escapedText text) ∧
  Routes.literal (Routes.escapedText text)
  = Routes.replace_all Routes.APOSTROPHE [Routes.RIGHT_QUOTE] text.
Proof.
  induction text as [|x t (IH1 & IH2 & IH3)].
  - repeat split. apply not_elem_of_nil.
  - rewrite escapedText_cons. split; [|split].
    + by rewrite neutralized_escape_unit.
    + intros [Hin|Hin]%elem_of_app; [|done].
      by apply apostrophe_not_in_escape_unit in Hin.
    + by rewrite literal_escape_unit, IH3, apostrophe_replaced.
Qed.

(** The text [50%: [a\b]'s] and its escaped form. *)
Example escapedText_sample :
  Routes.escapedText (Routes.units_of "50%: [a\b]'s")
  = Routes.units_of "50%%\: \[a\\b\]" ++ [Routes.RIGHT_QUOTE]
    ++ Routes.units_of "s".
Proof. reflexivity. Qed.

(** The route module without a queue escapes less: square brackets and
    percent signs pass unchanged and apostrophes stay in the text. *)
Lemma legacy_escapedText_passes_brackets :
  Legacy.escapedText (Routes.units_of "[50%]") = Routes.units_of "[50%]" ∧
  Routes.neutralized (Legacy.escapedText (Routes.units_of "[50%]")) = false ∧
  Routes.APOSTROPHE ∈ Legacy.escapedText [Routes.APOSTROPHE].
Proof. repeat split. vm_compute. repeat constructor. Qed.

(** ** Trimming *)

Section TrimFacts.
Import Js Routes.

Lemma trim_duration_max (start end_ : Q) :
  (trim_duration start end_ == Qmax 0 (end_ - start))%Q.
Proof.
  unfold trim_duration. destruct (Qlt_le_dec start end_) as [Hlt|Hle].
  - rewrite Q.max_r; [reflexivity|lra].
  - rewrite Q.max_l; [reflexivity|lra].
Qed.

Lemma trim_duration_nonneg (start end_ : Q) :
  (0 <= trim_duration start end_)%Q.
Proof.
  unfold trim_duration. destruct (Qlt_le_dec start end_); lra.
Qed.

Lemma trim_duration_zero (start end_ : Q) :
  (end_ <= start)%Q → trim_duration start end_ = 0%Q.
Proof.
  intros Hle. unfold trim_duration.
  destruct (Qlt_le_dec start end_); [lra|done].
Qed.

Lemma trim_outOpts_positive (d : Q) :
  (0 < d)%Q →
  trim_outOpts d = FFMPEG_OUTPUT_OPTS ++ [Lit "-t"; Num (Some d)].
Proof.
  intros Hd. unfold trim_outOpts. destruct (Qlt_le_dec 0 d); [done|lra].
Qed.

Lemma trim_outOpts_zero (d : Q) :
  (d <= 0)%Q → trim_outOpts d = FFMPEG_OUTPUT_OPTS.
Proof.
  intros Hd. unfold trim_outOpts.
  destruct (Qlt_le_dec 0 d); [lra|apply app_nil_r].
Qed.

End TrimFacts.

(** C7 (as amended): for every trim request that reaches the queue, with
    start [s] and end [e] as the handler reads them, the duration is
    [max(0, e - s)], never negative, and 0 when [e ≤ s]; the engine gets
    it as [-t] only when it is positive, and gets no duration option
    when it is 0. *)
Theorem trim_duration_clamped (parseFloatText : string → Js.number)
    (fs : Fs.t) (uuid : string) (q : Queue.state) (body : Routes.trim_body) :
  Js.truthy_string (Routes.trim_filename body) = true →
  Fs.existsSync (Fs.uploads fs) (default EmptyString (Routes.trim_filename body))
    = true →
  let s := Js.or_zero (Js.parseFloat parseFloatText (Routes.startTime body)) in
  let e := Js.or_zero (Js.parseFloat parseFloatText (Routes.endTime body)) in
  let d := Routes.trim_duration s e in
  (d == Qmax 0 (e - s))%Q ∧ (0 <= d)%Q ∧ ((e <= s)%Q → d = 0%Q) ∧
  ∃ j, Routes.postTrim parseFloatText fs uuid q body = Routes.submit q j ∧
       Routes.inputOptions (Routes.cmd j) = [Js.Lit "-ss"; Js.Num (Some s)] ∧
       ((0 < d)%Q →
          Routes.outputOptions (Routes.cmd j)
          = Routes.FFMPEG_OUTPUT_OPTS ++ [Js.Lit "-t"; Js.Num (Some d)]) ∧
       ((e <= s)%Q →
          Routes.outputOptions (Routes.cmd j) = Routes.FFMPEG_OUTPUT_OPTS).
Proof.
  intros Hname Hex s e d.
  split; [apply trim_duration_max|].
  split; [apply trim_duration_nonneg|].
  split; [apply trim_duration_zero|].
  unfold Routes.postTrim. rewrite Hname, Hex. cbn [negb].
  eexists. split; [reflexivity|]. cbn [Routes.cmd Routes.inputOptions
    Routes.outputOptions]. split; [done|]. split.
  - apply trim_outOpts_positive.
  - intros Hle. apply trim_outOpts_zero. fold s e.
    rewrite (trim_duration_zero s e Hle). lra.
Qed.

Lemma trim_duration_clamped_witness :
  Js.truthy_string (Routes.trim_filename trim_forward) = true ∧
  Fs.existsSync (Fs.uploads demo_fs) "clip.mp4" = true ∧
  ∃ j, Routes.postTrim no_text demo_fs "u" Queue.init trim_forward
       = Routes.submit Queue.init j ∧
       Routes.outputOptions (Routes.cmd j)
       = Routes.FFMPEG_OUTPUT_OPTS
         ++ [Js.Lit "-t"; Js.Num (Some (Routes.trim_duration 1 4))].
Proof.
  split; [reflexivity|]. split; [reflexivity|].
  destruct (trim_duration_clamped no_text demo_fs "u" Queue.init trim_forward
              eq_refl eq_refl) as (_ & _ & _ & j & Hj & _ & Hpos & _).
  exists j. split; [exact Hj|]. apply Hpos. reflexivity.
Defined.

(** C7 as stated fails: with start 5 and end 3 the duration is 0, and
    the options of the job hold no [-t] at all, so no duration reaches
    the engine. *)
Lemma trim_backward_passes_no_duration :
  Routes.trim_duration 5 3 = 0%Q ∧
  (Routes.outputOptions <$>
     (Routes.cmd <$>
        Routes.enqueued
          (Routes.postTrim no_text demo_fs "u" Queue.init trim_backward)))
  = Some Routes.FFMPEG_OUTPUT_OPTS ∧
  Routes.has_option "-t" Routes.FFMPEG_OUTPUT_OPTS = false.
Proof. repeat split. Qed.

(** The route module without a queue does not clamp: with start 5 and
    end 3 it asks the engine for a duration of -2. *)
Lemma legacy_trim_duration_unclamped :
  Legacy.trim_setDuration no_text (Js.Number (Some 5%Q)) (Js.Number (Some 3%Q))
  = Some (Some (3 - 5)%Q).
Proof. reflexivity. Qed.

(** ** Audio fade-out *)

(** [Math.max(0, x - 3)] on numbers: [x - 3] from 3 on, 0 up to 3. *)
Lemma fadeStart_number (x : Q) :
  ∃ r, Routes.fadeStart (Some x) = Some r ∧
       (3 <= x → r == x - 3)%Q ∧ (x <= 3 → r == 0)%Q.
Proof.
  exists (Qmax 0 (x - 3)). split; [reflexivity|]. split; intros Hx.
  - apply Q.max_r. lra.
  - apply Q.max_l. lra.
Qed.

(** C10 (as amended): for a fade-out request on an existing file the job
    is enqueued and no reply is sent yet, whatever the probe reports.
    When probing failed, or the probe reports no format, no duration or a
    duration of 0, the fade starts at 27, that is max(0, 30 - 3). When
    the probe reports a number [x] other than 0, or a text that
    [parseFloat] reads as the number [x], the fade starts at
    max(0, x - 3): at [x - 3] when [x ≥ 3] and at 0 when [x ≤ 3]. *)
Theorem fadeOut_probe_fallback (parseFloatText : string → Js.number)
    (fs : Fs.t) (probed : option Routes.metadata) (uuid : string)
    (q : Queue.state) (body : Routes.audio_body) :
  Js.truthy_string (Routes.audio_filename body) = true →
  Routes.operation body = Some "fadeOut"%string →
  Fs.existsSync (Fs.uploads fs)
    (default EmptyString (Routes.audio_filename body)) = true →
  ∃ j st,
    Routes.postAudio parseFloatText fs probed uuid q body
    = Routes.submit q j ∧
    Routes.sent (Routes.submit q j) = None ∧
    Routes.queue (Routes.submit q j)
    = Queue.enqueueJob Queue.MAX_CONCURRENT_JOBS q ∧
    Routes.audioFilters (Routes.cmd j)
    = [[Js.Lit "afade=t=out:st="; Js.Num st; Js.Lit ":d=3"]] ∧
    (probed = None ∨
     probed = Some {| Routes.format := None |} ∨
     probed = Routes.probe_reporting Js.Undefined ∨
     probed = Routes.probe_reporting (Js.Number None) ∨
     probed = Routes.probe_reporting (Js.Text EmptyString) ∨
     (∃ x, (x == 0)%Q ∧
           probed = Routes.probe_reporting (Js.Number (Some x))) →
     st = Some 27%Q) ∧
    (∀ x,
       (probed = Routes.probe_reporting (Js.Number (Some x)) ∧
        ¬ (x == 0)%Q) ∨
       (∃ s, probed = Routes.probe_reporting (Js.Text s) ∧
             s ≠ EmptyString ∧ parseFloatText s = Some x) →
       ∃ r, st = Some r ∧
            (3 <= x → r == x - 3)%Q ∧ (x <= 3 → r == 0)%Q).
Proof.
  intros Hname Hop Hex.
  unfold Routes.postAudio. rewrite Hname, Hop, Hex. cbn.
  eexists _, _. split; [reflexivity|]. split; [reflexivity|].
  split; [reflexivity|]. split; [reflexivity|]. split.
  - intros [->|[->|[->|[->|[->|(x & Hx & ->)]]]]]; try reflexivity.
    cbn. apply Qeq_bool_iff in Hx. by rewrite Hx.
  - intros x [[-> Hx]|(s & -> & Hs & Hp)]; cbn.
    + destruct (Qeq_bool x 0) eqn:E.
      * apply Qeq_bool_iff in E. done.
      * cbn. apply fadeStart_number.
    + destruct (String.eqb_spec s EmptyString); [done|]. cbn.
      rewrite Hp. apply fadeStart_number.
Qed.

Lemma fadeOut_probe_fallback_witness :
  Js.truthy_string (Routes.audio_filename fadeOut_request) = true ∧
  Routes.operation fadeOut_request = Some "fadeOut"%string ∧
  Fs.existsSync (Fs.uploads demo_fs) "clip.mp4" = true ∧
  (∃ j, Routes.postAudio no_text demo_fs None "u" Queue.init fadeOut_request
        = Routes.submit Queue.init j ∧
        Routes.audioFilters (Routes.cmd j)
        = [[Js.Lit "afade=t=out:st="; Js.Num (Some 27%Q); Js.Lit ":d=3"]]) ∧
  (∃ j r, Routes.postAudio no_text demo_fs
            (Routes.probe_reporting (Js.Number (Some 10%Q))) "u" Queue.init
            fadeOut_request
          = Routes.submit Queue.init j ∧
          Routes.audioFilters (Routes.cmd j)
          = [[Js.Lit "afade=t=out:st="; Js.Num (Some r); Js.Lit ":d=3"]] ∧
          (r == 10 - 3)%Q) ∧
  (∃ j r, Routes.postAudio no_text demo_fs
            (Routes.probe_reporting (Js.Number (Some 1%Q))) "u" Queue.init
            fadeOut_request
          = Routes.submit Queue.init j ∧
          Routes.audioFilters (Routes.cmd j)
          = [[Js.Lit "afade=t=out:st="; Js.Num (Some r); Js.Lit ":d=3"]] ∧
          (r == 0)%Q).
Proof.
  split; [reflexivity|]. split; [reflexivity|]. split; [reflexivity|].
  split; [|split].
  - destruct (fadeOut_probe_fallback no_text demo_fs None "u" Queue.init
                fadeOut_request eq_refl eq_refl eq_refl)
      as (j & st & Hj & _ & _ & Hf & H27 & _).
    exists j. split; [exact Hj|].
    rewrite Hf, (H27 (or_introl eq_refl)). reflexivity.
  - destruct (fadeOut_probe_fallback no_text demo_fs
                (Routes.probe_reporting (Js.Number (Some 10%Q))) "u"
                Queue.init fadeOut_request eq_refl eq_refl eq_refl)
      as (j & st & Hj & _ & _ & Hf & _ & Hx).
    assert (¬ (10 == 0)%Q) as Hn by (intros H; vm_compute in H; discriminate).
    destruct (Hx 10%Q (or_introl (conj eq_refl Hn))) as (r & -> & Hr & _).
    exists j, r. split; [exact Hj|]. split; [exact Hf|]. apply Hr. lra.
  - destruct (fadeOut_probe_fallback no_text demo_fs
                (Routes.probe_reporting (Js.Number (Some 1%Q))) "u"
                Queue.init fadeOut_request eq_refl eq_refl eq_refl)
      as (j & st & Hj & _ & _ & Hf & _ & Hx).
    assert (¬ (1 == 0)%Q) as Hn by (intros H; vm_compute in H; discriminate).
    destruct (Hx 1%Q (or_introl (conj eq_refl Hn))) as (r & -> & _ & Hr).
    exists j, r. split; [exact Hj|]. split; [exact Hf|]. apply Hr. lra.
Defined.

(** The formula max(0, d - 3) with the probed duration as [d] fails on
    two probe results: a probed duration of 0 is taken as no duration,
    so the fade starts at 27 and not at max(0, 0 - 3) = 0; and a duration
    that is the text [N/A] passes the test of the conditional, is read
    as [NaN] and makes the fade start [NaN], where 30 was to be taken. *)
Lemma fadeOut_zero_or_unreadable_duration :
  (∃ j, Routes.postAudio no_text demo_fs
          (Routes.probe_reporting (Js.Number (Some 0%Q))) "u" Queue.init
          fadeOut_request
        = Routes.submit Queue.init j ∧
        Routes.audioFilters (Routes.cmd j)
        = [[Js.Lit "afade=t=out:st="; Js.Num (Some 27%Q); Js.Lit ":d=3"]]) ∧
  ¬ (27 == Qmax 0 (0 - 3))%Q ∧
  (∃ j, Routes.postAudio no_text demo_fs
          (Routes.probe_reporting (Js.Text "N/A")) "u" Queue.init
          fadeOut_request
        = Routes.submit Queue.init j ∧
        Routes.audioFilters (Routes.cmd j)
        = [[Js.Lit "afade=t=out:st="; Js.Num None; Js.Lit ":d=3"]]).
Proof.
  split; [eexists; split; reflexivity|].
  split; [intros H; vm_compute in H; discriminate|].
  eexists; split; reflexivity.
Qed.

(** What the conditional of the fade-out counts as no duration: a probed
    duration of 0 is replaced by 30 as well, and a duration in text that
    [parseFloat] cannot read gives [NaN]. *)
Lemma fadeOut_duration_edges (parseFloatText : string → Js.number)
    (s : string) :
  Routes.fadeStart
    (Routes.fadeOut_duration parseFloatText
       (Some {| Routes.format :=
                  Some {| Routes.duration := Js.Number (Some 0%Q) |} |}))
  = Some 27%Q ∧
  (s ≠ EmptyString → parseFloatText s = None →
   Routes.fadeStart
     (Routes.fadeOut_duration parseFloatText
        (Some {| Routes.format :=
                   Some {| Routes.duration := Js.Text s |} |}))
   = None).
Proof.
  split; [reflexivity|]. intros Hs Hp. cbn.
  destruct (String.eqb_spec s EmptyString); [done|]. cbn. by rewrite Hp.
Qed.

(** ** Validation before admission *)

Section ValidationFacts.
Import Js Routes.

Lemma get_property_absent (name : string) :
  filterMap !! name = None → name ∉ Object_prototype →
  truthy (get_property filterMap name) = false.
Proof.
  intros Hown Hproto. unfold get_property. rewrite Hown.
  by rewrite bool_decide_eq_false_2.
Qed.

Lemma truthy_string_Some (s : string) :
  s ≠ EmptyString → truthy_string (Some s) = true.
Proof.
  intros Hs. cbn. by destruct (String.eqb_spec s EmptyString).
Qed.

End ValidationFacts.

(** The escaped text is what [POST /text] puts between the quotes of
    the [text] argument of the filter it hands to the queue. *)
Lemma postText_interpolates_escapedText (fs : Fs.t) (uuid file : string)
    (q : Queue.state) (body : Routes.text_body) (t : Routes.units) :
  Routes.text_filename body = Some file → file ≠ EmptyString →
  Routes.text body = Some t → t ≠ [] →
  Fs.existsSync (Fs.uploads fs) file = true →
  ∃ j style,
    Routes.postText fs None uuid q body = Routes.submit q j ∧
    Routes.videoFilters (Routes.cmd j)
    = [Js.Lit "drawtext=text='" :: Js.Units (Routes.escapedText t) :: style;
       [Js.Lit "scale=480:-2"]].
Proof.
  intros Hf Hfile Ht Hne Hex. unfold Routes.postText.
  rewrite Hf, Ht, truthy_string_Some by done.
  rewrite bool_decide_eq_true_2 by (split; [eauto|congruence]).
  cbn [negb orb from_option id]. rewrite Hex. cbn [negb].
  eexists _, _. split; [reflexivity|]. reflexivity.
Qed.

(** C8 (as amended): a request without a required parameter is answered
    with status 400; a filter name that [filterMap] resolves to nothing,
    or an audio operation that is none of the five known ones, is
    answered with status 404 when the input file does not exist and with
    status 400 when it does; in all these cases [enqueueJob] is not
    called: the queue is left as it was found. *)
Theorem invalid_request_leaves_queue (parseFloatText : string → Js.number)
    (fs : Fs.t) (probed : option Routes.metadata) (fontFile : option string)
    (uuid : string) (q : Queue.state) :
  (∀ body,
     Js.truthy_string (Routes.trim_filename body) = false →
     Routes.postTrim parseFloatText fs uuid q body
     = Routes.refuse q 400 "filename required") ∧
  (∀ body,
     Js.truthy_string (Routes.filter_filename body) = false
     ∨ Js.truthy_string (Routes.filter body) = false →
     Routes.postFilter fs uuid q body
     = Routes.refuse q 400 "filename and filter required") ∧
  (∀ body file name,
     Routes.filter_filename body = Some file → file ≠ EmptyString →
     Routes.filter body = Some name → name ≠ EmptyString →
     Routes.filterMap !! name = None → name ∉ Routes.Object_prototype →
     Routes.postFilter fs uuid q body
     = if Fs.existsSync (Fs.uploads fs) file
       then Routes.refuse q 400 ("Unknown filter: " +:+ name)
       else Routes.refuse q 404 "Input file not found") ∧
  (∀ body,
     Js.truthy_string (Routes.text_filename body) = false
     ∨ Routes.text body = None ∨ Routes.text body = Some [] →
     Routes.postText fs fontFile uuid q body
     = Routes.refuse q 400 "filename and text required") ∧
  (∀ body,
     (Routes.filenames body = None
      ∨ ∃ names, Routes.filenames body = Some names ∧ (length names < 2)%nat) →
     Routes.postMerge fs uuid q body
     = Routes.refuse q 400 "At least 2 filenames required") ∧
  (∀ body,
     Js.truthy_string (Routes.audio_filename body) = false
     ∨ Js.truthy_string (Routes.operation body) = false →
     Routes.postAudio parseFloatText fs probed uuid q body
     = Routes.refuse q 400 "filename and operation required") ∧
  (∀ body file op,
     Routes.audio_filename body = Some file → file ≠ EmptyString →
     Routes.operation body = Some op → op ≠ EmptyString →
     op ∉ ["extract"; "fadeOut"; "mute"; "volume"; "fadeIn"]%string →
     Routes.postAudio parseFloatText fs probed uuid q body
     = if Fs.existsSync (Fs.uploads fs) file
       then Routes.refuse q 400 ("Unknown audio operation: " +:+ op)
       else Routes.refuse q 404 "Input file not found") ∧
  (∀ st error,
     Routes.queue (Routes.refuse q st error) = q ∧
     Routes.enqueued (Routes.refuse q st error) = None ∧
     Routes.sent (Routes.refuse q st error)
     = Some (Routes.Failure st error None)).
Proof.
  repeat split.
  - intros body H. unfold Routes.postTrim. by rewrite H.
  - intros body [H|H]; unfold Routes.postFilter; rewrite H; cbn;
      by rewrite ?orb_true_r.
  - intros body file name Hf Hfile Hn Hname Hown Hproto.
    unfold Routes.postFilter. rewrite Hf, Hn.
    rewrite !truthy_string_Some by done. cbn.
    destruct (Fs.existsSync (Fs.uploads fs) file); cbn; [|done].
    by rewrite get_property_absent.
  - intros body H. unfold Routes.postText.
    destruct (Js.truthy_string (Routes.text_filename body)); cbn; [|done].
    rewrite bool_decide_eq_false_2; [done|].
    intros [[t Ht] Hne]. destruct H as [H|[H|H]]; congruence.
  - intros body [H|(names & H & Hlen)]; unfold Routes.postMerge; rewrite H;
      [done|]. by rewrite bool_decide_eq_true_2.
  - intros body [H|H]; unfold Routes.postAudio; rewrite H; cbn;
      by rewrite ?orb_true_r.
  - intros body file op Hf Hfile Ho Hop Hunknown.
    unfold Routes.postAudio. rewrite Hf, Ho.
    rewrite !truthy_string_Some by done. cbn.
    destruct (Fs.existsSync (Fs.uploads fs) file); cbn; [|done].
    repeat match goal with
      | |- context [String.eqb op ?known] =>
          destruct (String.eqb_spec op known) as [->|?];
            [exfalso; apply Hunknown; set_solver|]
      end.
    done.
Qed.

Lemma invalid_request_leaves_queue_witness :
  Routes.filter_filename filter_unknown = Some "clip.mp4"%string ∧
  Routes.filter filter_unknown = Some "nope"%string ∧
  Routes.filterMap !! "nope"%string = None ∧
  ("nope"%string ∉ Routes.Object_prototype) ∧
  Routes.postFilter demo_fs "u" Queue.init filter_unknown
  = Routes.refuse Queue.init 400 "Unknown filter: nope" ∧
  Routes.queue (Routes.postFilter demo_fs "u" Queue.init filter_unknown)
  = Queue.init.
Proof.
  split; [reflexivity|]. split; [reflexivity|].
  split; [vm_compute; reflexivity|].
  assert ("nope"%string ∉ Routes.Object_prototype) as Hproto.
  { intros Hin. by apply (bool_decide_eq_true_2 _) in Hin. }
  split; [exact Hproto|].
  destruct (invalid_request_leaves_queue no_text demo_fs None None "u"
              Queue.init) as (_ & _ & Hfilter & _ & _ & _ & _ & Hrefuse).
  pose proof (Hfilter filter_unknown "clip.mp4"%string "nope"%string eq_refl
                ltac:(discriminate) eq_refl ltac:(discriminate)
                ltac:(vm_compute; reflexivity) Hproto) as H.
  split; [exact H|]. rewrite H. apply Hrefuse.
Defined.

(** C8 as stated fails twice: an unknown filter name on a file that does
    not exist is answered with 404, not 400; and the name [constructor],
    which is no filter, finds the property every object inherits and is
    sent to the queue. *)
Lemma unknown_filter_not_always_400_nor_refused :
  (Routes.status_of <$>
     Routes.sent (Routes.postFilter demo_fs "u" Queue.init
                    filter_unknown_missing_file)) = Some 404 ∧
  Routes.filterMap !! "constructor"%string = None ∧
  Routes.sent (Routes.postFilter demo_fs "u" Queue.init filter_inherited)
  = None ∧
  Queue.activeJobs
    (Routes.queue (Routes.postFilter demo_fs "u" Queue.init filter_inherited))
  = 1 ∧
  Queue.activeJobs Queue.init = 0.
Proof. repeat split; vm_compute; reflexivity. Qed.

(** ** Failed jobs and their output *)

(** C4 (as amended): a job leaves the files exactly as the engine left
    them, and no handler removes anything; after an engine error the
    reply is the 500 failure (unless one was sent already) and the
    promise of the job is fulfilled, so a partial output written by the
    engine stays in the processed directory. *)
Theorem failed_job_keeps_partial_output (ffmpeg : Routes.engine)
    (j : Routes.jobFn) (headersSent : bool) (fs : Fs.t) :
  (Routes.run_job ffmpeg j headersSent fs).1.1 = (ffmpeg (Routes.cmd j) fs).1 ∧
  (∀ message,
     (ffmpeg (Routes.cmd j) fs).2 = Routes.Error message →
     (Routes.run_job ffmpeg j headersSent fs).1.2
     = (if headersSent then None
        else Some (Routes.Failure 500 (Routes.on_error j) (Some message))) ∧
     (Routes.run_job ffmpeg j headersSent fs).2 = Queue.Fulfilled ∧
     ∀ c, Fs.existsSync (Fs.processed (ffmpeg (Routes.cmd j) fs).1) c = true →
          Fs.existsSync
            (Fs.processed (Routes.run_job ffmpeg j headersSent fs).1.1) c
          = true).
Proof.
  unfold Routes.run_job.
  destruct (ffmpeg (Routes.cmd j) fs) as [fs' ev] eqn:E. cbn.
  split.
  - by destruct ev.
  - intros message ->. cbn. done.
Qed.

Lemma failed_job_keeps_partial_output_witness :
  (failing_engine (Routes.cmd filter_job) demo_fs).2
  = Routes.Error "Conversion failed!" ∧
  (Routes.run_job failing_engine filter_job false demo_fs).1.2
  = Some (Routes.Failure 500 "Failed to apply filter"
            (Some "Conversion failed!"%string)) ∧
  (Routes.run_job failing_engine filter_job false demo_fs).2
  = Queue.Fulfilled.
Proof.
  split; [reflexivity|].
  destruct (failed_job_keeps_partial_output failing_engine filter_job false
              demo_fs) as [_ H].
  destruct (H "Conversion failed!"%string eq_refl) as (H1 & H2 & _).
  split; [exact H1|exact H2].
Defined.

(** C4 as stated fails: the engine writes 17 bytes of the output and
    reports an error; after the failure reply the partial file is still
    in the processed directory. [safeDelete] would have removed it. *)
Lemma partial_output_survives_failure :
  (Routes.status_of <$>
     (Routes.run_job failing_engine filter_job false demo_fs).1.2) = Some 500 ∧
  Fs.existsSync
    (Fs.processed (Routes.run_job failing_engine filter_job false demo_fs).1.1)
    "filtered_u.mp4" = true ∧
  Fs.existsSync
    (Fs.processed
       (Routes.safeDelete Fs.PROCESSED_DIR "filtered_u.mp4"
          (Routes.run_job failing_engine filter_job false demo_fs).1.1))
    "filtered_u.mp4" = false.
Proof. repeat split; vm_compute; reflexivity. Qed.

(** * Further properties of the modelled code *)

(** ** The job queue: slots, accounting and waiting time *)

Section QueueMore.
Import Queue.

Variable N : Z.
Hypothesis N_pos : 1 ≤ N.

Ltac fields :=
  cbn [activeJobs jobQueue pending started delivered submitted counter_log
       run push] in *.

Lemma take_out_absent (j : job) (l : list job) : j ∉ l → take_out j l = None.
Proof.
  induction l as [|x l IH]; intros Hj; simpl; [done|].
  rewrite decide_False by (intros ->; apply Hj; left).
  rewrite IH; [done|]. intros Hin. apply Hj. by right.
Qed.

Lemma inv_NoDup_all (s : state) :
  inv N s → NoDup (((delivered s).*1 ++ pending s) ++ jobQueue s).
Proof.
  intros Hi. rewrite <- (inv_account _ _ Hi), (inv_order _ _ Hi).
  apply NoDup_seq.
Qed.

(** X1: A job waits only while all the slots are taken: with a free slot the
    queue is empty and a submitted job starts at once; with all slots
    taken it goes to the back of the queue and nothing else changes. *)
Theorem queue_work_conserving (tr : list event) (s : state) :
  exec N init tr = Some s →
  (jobQueue s ≠ [] → activeJobs s = N ∧ pending s ≠ []) ∧
  (activeJobs s < N →
     jobQueue s = [] ∧
     jobQueue (enqueueJob N s) = [] ∧
     pending (enqueueJob N s) = pending s ++ [submitted s] ∧
     started (enqueueJob N s) = started s ++ [submitted s]) ∧
  (activeJobs s = N →
     jobQueue (enqueueJob N s) = jobQueue s ++ [submitted s] ∧
     pending (enqueueJob N s) = pending s ∧
     started (enqueueJob N s) = started s ∧
     activeJobs (enqueueJob N s) = N).
Proof.
  intros He. pose proof (reachable_inv N N_pos _ _ He) as Hi.
  assert (jobQueue s ≠ [] → activeJobs s = N) as Hsat
    by apply (inv_saturated _ _ Hi).
  split; [|split].
  - intros Hq. split; [by apply Hsat|].
    intros Hp. pose proof (inv_count _ _ Hi) as Hc.
    rewrite Hp in Hc. simpl in Hc. specialize (Hsat Hq). lia.
  - intros Hlt.
    assert (jobQueue s = []) as Hq.
    { destruct (jobQueue s) eqn:E; [done|].
      assert (activeJobs s = N) by (by apply Hsat). lia. }
    unfold enqueueJob. fields.
    destruct (Z.ltb_spec (activeJobs s) N); [|lia]. fields. by rewrite Hq.
  - intros Heq. unfold enqueueJob. fields.
    destruct (Z.ltb_spec (activeJobs s) N); [lia|]. fields. done.
Qed.

(** X2: Every submitted job is in exactly one place: answered, running or
    waiting; no job is answered twice, and the promise of a job that was
    answered, or that has not started yet, cannot settle. *)
Theorem queue_delivers_once (tr : list event) (s : state) :
  exec N init tr = Some s →
  NoDup (delivered s).*1 ∧
  submissions tr
  = (length (delivered s) + length (pending s) + length (jobQueue s))%nat ∧
  (∀ j : job, (j < submissions tr)%nat ↔
     j ∈ (delivered s).*1 ∨ j ∈ pending s ∨ j ∈ jobQueue s) ∧
  (∀ j : job, j ∈ (delivered s).*1 → (j ∉ pending s) ∧ (j ∉ jobQueue s)) ∧
  (∀ j : job, j ∈ pending s → (j ∉ jobQueue s)) ∧
  (∀ (j : job) o, j ∈ (delivered s).*1 ∨ j ∈ jobQueue s → settle j o s = None).
Proof.
  intros He. pose proof (reachable_inv N N_pos _ _ He) as Hi.
  pose proof (reachable_submitted N _ _ He) as Hsub.
  pose proof (inv_NoDup_all s Hi) as Hnd.
  apply NoDup_app in Hnd as (Hnd1 & Hdis1 & Hnd3).
  apply NoDup_app in Hnd1 as (Hnd1 & Hdis2 & Hnd2).
  assert (∀ j, j ∈ ((delivered s).*1 ++ pending s) ++ jobQueue s
               ↔ (j < submitted s)%nat) as Hall.
  { intros j. rewrite <- (inv_account _ _ Hi), (inv_order _ _ Hi).
    rewrite elem_of_seq. lia. }
  split; [done|]. split; [|split; [|split; [|split]]].
  - rewrite <- Hsub, <- (length_seq (submitted s) 0), <- (inv_order _ _ Hi).
    rewrite (inv_account _ _ Hi), !length_app, length_fmap. done.
  - intros j. rewrite <- Hsub, <- Hall, !elem_of_app. tauto.
  - intros j Hj. split.
    + by apply Hdis2.
    + apply Hdis1, elem_of_app. by left.
  - intros j Hj. apply Hdis1, elem_of_app. by right.
  - intros j o Hj. unfold settle. rewrite take_out_absent; [done|].
    intros Hp. destruct Hj as [Hj|Hj].
    + by apply (Hdis2 j).
    + apply (Hdis1 j); [|done]. apply elem_of_app. by right.
Qed.

(** The started jobs are never forgotten. *)
Lemma step_started_grows (s s' : state) (e : event) :
  step N s e = Some s' → ∃ l, started s' = started s ++ l.
Proof.
  destruct e as [|j o]; simpl.
  - intros [= <-]. unfold enqueueJob. fields.
    destruct (activeJobs s <? N); fields; [eauto|].
    exists []. by rewrite app_nil_r.
  - unfold settle. destruct (take_out j (pending s)); [|done]. fields.
    destruct (jobQueue s); intros [= <-]; fields; [|eauto].
    exists []. by rewrite app_nil_r.
Qed.

(** What one event does to the job at position [i] of the queue. *)
Lemma step_queue_position (s s' : state) (e : event) (i : nat) (j : job) :
  inv N s → jobQueue s !! i = Some j → step N s e = Some s' →
  match e, i with
  | Submit, _ => jobQueue s' !! i = Some j
  | Settle _ _, O => j ∈ started s'
  | Settle _ _, S i' => jobQueue s' !! i' = Some j
  end.
Proof.
  intros Hi Hq. destruct e as [|k o]; simpl.
  - intros [= <-]. unfold enqueueJob. fields.
    assert (jobQueue s ≠ []) as Hne by (intros E; by rewrite E in Hq).
    pose proof (inv_saturated _ _ Hi Hne).
    destruct (Z.ltb_spec (activeJobs s) N); [lia|]. fields.
    rewrite lookup_app_l; [done|]. by eapply lookup_lt_Some.
  - unfold settle. destruct (take_out k (pending s)); [|done]. fields.
    destruct (jobQueue s) as [|next waiting]; [done|].
    intros [= <-]. fields. destruct i as [|i'].
    + injection Hq as ->. apply elem_of_app. right. by left.
    + done.
Qed.

(** X3: A job at position [i] of the queue starts at the settlement number
    [i + 1] from now, however many jobs are submitted meanwhile: before
    that it has moved up by one place per settlement. *)
Theorem queue_waiting_time (tr tr' : list event) (s s' : state)
    (i : nat) (j : job) :
  exec N init tr = Some s →
  jobQueue s !! i = Some j →
  exec N s tr' = Some s' →
  if decide (i < settlements tr')%nat then j ∈ started s'
  else jobQueue s' !! (i - settlements tr')%nat = Some j.
Proof.
  intros He. pose proof (reachable_inv N N_pos _ _ He) as Hi.
  clear He. revert s s' i Hi.
  induction tr' as [|e tr' IH]; intros s s' i Hi Hq.
  - intros [= <-]. change (settlements []) with 0%nat.
    rewrite decide_False by lia. by rewrite Nat.sub_0_r.
  - cbn [exec]. destruct (step N s e) as [s1|] eqn:Hs; [|done].
    intros He'. pose proof (inv_step N _ _ _ Hi Hs) as Hi1.
    pose proof (step_queue_position _ _ _ _ _ Hi Hq Hs) as Hpos.
    unfold settlements in *.
    destruct e as [|k o].
    + rewrite filter_cons_False by done. by apply (IH s1 s' i).
    + rewrite filter_cons_True by done. cbn [length].
      destruct i as [|i'].
      * rewrite decide_True by lia.
        clear -He' Hpos. revert s1 He' Hpos.
        induction tr' as [|e tr' IH']; intros s1.
        -- by intros [= <-].
        -- cbn [exec]. destruct (step N s1 e) as [s2|] eqn:Hs; [|done].
           intros He' Hj. apply (IH' s2 He').
           destruct (step_started_grows _ _ _ Hs) as [l ->].
           apply elem_of_app. by left.
      * specialize (IH s1 s' i' Hi1 Hpos He').
        destruct (decide (i' < length (filter (λ e, is_submit e = false) tr'))%nat).
        -- by rewrite decide_True by lia.
        -- by rewrite decide_False by lia.
Qed.

End QueueMore.

(** With one slot the results come back in the order of submission. *)

Lemma serial_step (s s' : Queue.state) (e : Queue.event) :
  Queue.inv 1 s →
  Queue.started s = (Queue.delivered s).*1 ++ Queue.pending s →
  Queue.step 1 s e = Some s' →
  Queue.started s' = (Queue.delivered s').*1 ++ Queue.pending s'.
Proof.
  intros Hi Hser. destruct e as [|j o]; simpl.
  - intros [= <-]. unfold Queue.enqueueJob. cbn [Queue.activeJobs].
    destruct (Queue.activeJobs s <? 1); cbn; [|done].
    by rewrite Hser, (assoc_L (++)).
  - unfold Queue.settle.
    destruct (Queue.take_out j (Queue.pending s)) as [rest|] eqn:Ht; [|done].
    pose proof (Queue.inv_count _ _ Hi) as Hc.
    pose proof (Queue.inv_ceiling _ _ Hi) as Hn.
    destruct (Queue.pending s) as [|p [|p' ps]] eqn:Hp; simpl in Hc;
      [done| |lia].
    simpl in Ht. destruct (decide (p = j)) as [->|]; [|done].
    injection Ht as <-. cbn.
    destruct (Queue.jobQueue s); intros [= <-]; cbn;
      rewrite Hser, fmap_app; cbn; by rewrite <- ?(assoc_L (++)).
Qed.

Lemma serial_exec (tr : list Queue.event) : ∀ s s',
  Queue.inv 1 s →
  Queue.started s = (Queue.delivered s).*1 ++ Queue.pending s →
  Queue.exec 1 s tr = Some s' →
  Queue.started s' = (Queue.delivered s').*1 ++ Queue.pending s'.
Proof.
  induction tr as [|e tr IH]; intros s s' Hi Hser; cbn [Queue.exec].
  - by intros [= <-].
  - destruct (Queue.step 1 s e) as [s1|] eqn:Hs; [|done].
    apply IH; [by eapply inv_step|by eapply serial_step].
Qed.

(** X4: As the module is configured (one slot), at most one job runs at a
    time and the results are handed out in submission order: the i-th
    result delivered is the one of the i-th job submitted. *)
Theorem queue_serial_delivery (tr : list Queue.event) (s : Queue.state) :
  Queue.exec Queue.MAX_CONCURRENT_JOBS Queue.init tr = Some s →
  (length (Queue.pending s) ≤ 1)%nat ∧
  (Queue.delivered s).*1 = seq 0 (length (Queue.delivered s)) ∧
  (∀ (i : nat) (j : Queue.job) o,
     Queue.delivered s !! i = Some (j, o) → j = i).
Proof.
  change Queue.MAX_CONCURRENT_JOBS with 1. intros He.
  assert (1 ≤ 1) as H1 by lia.
  pose proof (reachable_inv 1 H1 _ _ He) as Hi.
  pose proof (serial_exec tr _ _ (inv_init 1 H1) eq_refl He) as Hser.
  destruct (inv_fifo 1 s Hi) as [Hst _].
  assert ((Queue.delivered s).*1 = seq 0 (length (Queue.delivered s))) as Hd.
  { rewrite Hser, length_app, seq_app in Hst.
    apply app_inj_1 in Hst as [Hst _];
      [|by rewrite length_seq]. by rewrite length_fmap in Hst. }
  split; [|split; [done|]].
  - pose proof (Queue.inv_count _ _ Hi). pose proof (Queue.inv_ceiling _ _ Hi).
    lia.
  - intros i j o Hl.
    assert ((Queue.delivered s).*1 !! i = Some j) as Hl'
      by (by rewrite list_lookup_fmap, Hl).
    rewrite Hd in Hl'. apply lookup_seq in Hl'. lia.
Qed.

Lemma queue_serial_delivery_witness :
  Queue.exec Queue.MAX_CONCURRENT_JOBS Queue.init queue_demo_trace
    = Some queue_demo_state ∧
  (Queue.delivered queue_demo_state).*1
    = seq 0 (length (Queue.delivered queue_demo_state)).
Proof.
  split; [reflexivity|].
  apply (queue_serial_delivery queue_demo_trace queue_demo_state eq_refl).
Defined.

Lemma queue_work_conserving_witness :
  1 ≤ Queue.MAX_CONCURRENT_JOBS ∧
  Queue.exec Queue.MAX_CONCURRENT_JOBS Queue.init [Queue.Submit; Queue.Submit]
    = Some queue_busy_state ∧
  (Queue.jobQueue queue_busy_state ≠ [] →
   Queue.activeJobs queue_busy_state = Queue.MAX_CONCURRENT_JOBS ∧
   Queue.pending queue_busy_state ≠ []).
Proof.
  split; [unfold Queue.MAX_CONCURRENT_JOBS; lia|]. split; [reflexivity|].
  apply (queue_work_conserving Queue.MAX_CONCURRENT_JOBS
           ltac:(unfold Queue.MAX_CONCURRENT_JOBS; lia)
           [Queue.Submit; Queue.Submit] queue_busy_state eq_refl).
Defined.

Lemma queue_delivers_once_witness :
  1 ≤ Queue.MAX_CONCURRENT_JOBS ∧
  Queue.exec Queue.MAX_CONCURRENT_JOBS Queue.init queue_demo_trace
    = Some queue_demo_state ∧
  NoDup (Queue.delivered queue_demo_state).*1 ∧
  Queue.submissions queue_demo_trace
  = (length (Queue.delivered queue_demo_state)
     + length (Queue.pending queue_demo_state)
     + length (Queue.jobQueue queue_demo_state))%nat.
Proof.
  split; [unfold Queue.MAX_CONCURRENT_JOBS; lia|]. split; [reflexivity|].
  destruct (queue_delivers_once Queue.MAX_CONCURRENT_JOBS
              ltac:(unfold Queue.MAX_CONCURRENT_JOBS; lia)
              queue_demo_trace queue_demo_state eq_refl) as (H1 & H2 & _).
  split; [exact H1|exact H2].
Defined.

(** The job that waits behind a running one starts at the first
    settlement, also when a third job is submitted before. *)
Lemma queue_waiting_time_witness :
  1 ≤ Queue.MAX_CONCURRENT_JOBS ∧
  Queue.exec Queue.MAX_CONCURRENT_JOBS Queue.init [Queue.Submit; Queue.Submit]
    = Some queue_busy_state ∧
  Queue.jobQueue queue_busy_state !! 0%nat = Some 1%nat ∧
  Queue.exec Queue.MAX_CONCURRENT_JOBS queue_busy_state
    [Queue.Submit; Queue.Settle 0%nat Queue.Rejected]
    = Some queue_after_failure ∧
  1%nat ∈ Queue.started queue_after_failure.
Proof.
  split; [unfold Queue.MAX_CONCURRENT_JOBS; lia|]. split; [reflexivity|].
  split; [reflexivity|]. split; [reflexivity|].
  apply (queue_waiting_time Queue.MAX_CONCURRENT_JOBS
           ltac:(unfold Queue.MAX_CONCURRENT_JOBS; lia)
           [Queue.Submit; Queue.Submit]
           [Queue.Submit; Queue.Settle 0%nat Queue.Rejected]
           queue_busy_state queue_after_failure 0%nat 1%nat
           eq_refl eq_refl eq_refl).
Defined.

(** ** The eviction sweep: what it counts and how sweeps compose *)

Section SweepMore.
Import Sweep.

Lemma size_delete_present (m : gmap string Fs.node) (k : string) (nd : Fs.node) :
  m !! k = Some nd → size m = S (size (delete k m)).
Proof.
  intros Hk. rewrite <- (insert_delete_id m k nd Hk) at 1.
  rewrite map_size_insert_None; [done|]. apply lookup_delete_eq.
Qed.

(** One iteration removes at most the listed entry, and counts it. *)
Lemma cleanup_file_count (now : Z) (m : gmap string Fs.node) (c : Z)
    (file : string) :
  (cleanup_file now (m, c) file).1 ⊆ m ∧
  Z.of_nat (size (cleanup_file now (m, c) file).1)
  + (cleanup_file now (m, c) file).2
  = Z.of_nat (size m) + c.
Proof.
  unfold cleanup_file, Fs.statSync, Fs.unlinkSync.
  destruct (m !! file) as [nd|] eqn:Hf; [|done].
  destruct (Fs.stat_throws nd); [done|].
  destruct (Fs.isFile nd && (now - Fs.mtimeMs nd >? MAX_FILE_AGE_MS)); [|done].
  destruct (Fs.unlink_throws nd || negb (Fs.isFile nd)); [done|].
  cbn [fst snd]. split; [apply delete_subseteq|].
  rewrite (size_delete_present m file nd Hf). lia.
Qed.

Lemma cleanup_fold_count (now : Z) (files : list string) :
  ∀ acc : gmap string Fs.node * Z,
    (fold_left (cleanup_file now) files acc).1 ⊆ acc.1 ∧
    Z.of_nat (size (fold_left (cleanup_file now) files acc).1)
    + (fold_left (cleanup_file now) files acc).2
    = Z.of_nat (size acc.1) + acc.2.
Proof.
  induction files as [|f files IH]; intros [m c]; cbn [fold_left]; [done|].
  destruct (IH (cleanup_file now (m, c) f)) as [Hsub Hsize].
  destruct (cleanup_file_count now m c f) as [Hsub1 Hsize1].
  split; [by etrans|]. cbn [fst snd]. lia.
Qed.

Lemma removable_later (now now' : Z) (nd : Fs.node) :
  now ≤ now' → removable now nd = true → removable now' nd = true.
Proof.
  unfold removable, expired. intros Hle.
  destruct (Fs.isFile nd), (Fs.stat_throws nd), (Fs.unlink_throws nd);
    cbn; rewrite ?andb_false_r, ?andb_true_r; try done.
  intros H%Z.gtb_gt. apply Z.gtb_gt. lia.
Qed.

Lemma swept_later (now now' : Z) (o : option Fs.node) :
  now ≤ now' → (o ≫= swept now) ≫= swept now' = o ≫= swept now'.
Proof.
  intros Hle. destruct o as [nd|]; [|done]. cbn. unfold swept at 2 3.
  destruct (removable now nd) eqn:E; cbn.
  - by rewrite (removable_later now now' nd Hle E).
  - done.
Qed.

Lemma cleanup_compose (now now' : Z) (c : Fs.directory) :
  now ≤ now' →
  (cleanupOldFiles now' (cleanupOldFiles now c).1).1
  = (cleanupOldFiles now' c).1.
Proof.
  intros Hle. destruct c as [m|]; [|done].
  destruct (cleanupOldFiles_lookup now m) as (m1 & -> & H1).
  destruct (cleanupOldFiles_lookup now' m1) as (m2 & -> & H2).
  destruct (cleanupOldFiles_lookup now' m) as (m3 & -> & H3).
  f_equal. apply map_eq. intros k.
  by rewrite H2, H1, H3, swept_later.
Qed.

End SweepMore.

(** X5: The number [cleaned] that a sweep of a directory logs is the number
    of entries it removed, and the sweep only removes: what is left is a
    part of what was there, entry by entry unchanged. *)
Theorem sweep_counts_removed (now : Z) (m : gmap string Fs.node) :
  ∃ m', Sweep.cleanupOldFiles now (Some m)
        = (Some m', Z.of_nat (size m) - Z.of_nat (size m')) ∧
        m' ⊆ m ∧ (size m' ≤ size m)%nat.
Proof.
  unfold Sweep.cleanupOldFiles. cbn [Fs.readdirSync].
  pose proof (cleanup_fold_count now (map_to_list m).*1 (m, 0)) as [Hsub Hsize].
  destruct (fold_left (Sweep.cleanup_file now) (map_to_list m).*1 (m, 0))
    as [m' cleaned].
  cbn [fst snd] in *. exists m'. split; [f_equal; f_equal; lia|].
  split; [done|]. by apply map_subseteq_size.
Qed.

(** X6: A later sweep makes an earlier one redundant: sweeping at clocks
    [now] and then at later clocks [now'] leaves the two directories as
    one sweep at [now'] does; in particular a sweep repeated at the same
    clock changes nothing more. *)
Theorem sweep_later_absorbs (now_u now_p now_u' now_p' : Z) (fs : Fs.t) :
  now_u ≤ now_u' → now_p ≤ now_p' →
  Sweep.sweep now_u' now_p' (Sweep.sweep now_u now_p fs)
  = Sweep.sweep now_u' now_p' fs.
Proof.
  intros Hu Hp. destruct fs as [u p]. unfold Sweep.sweep.
  cbn [Fs.get Fs.set Fs.uploads Fs.processed].
  by rewrite !cleanup_compose.
Qed.

Lemma sweep_later_absorbs_witness :
  2000000 ≤ 2000000 ∧ 2000001 ≤ 2000001 ∧
  Sweep.sweep 2000000 2000001 (Sweep.sweep 2000000 2000001 sweep_demo_fs)
  = Sweep.sweep 2000000 2000001 sweep_demo_fs.
Proof.
  split; [lia|]. split; [lia|].
  apply (sweep_later_absorbs 2000000 2000001 2000000 2000001 sweep_demo_fs);
    lia.
Defined.

(** ** Range streaming: what is checked, and where *)



(** X8: A suffix range [bytes=-b] is not understood as the last [b] bytes:
    its start is [NaN], which [fs.createReadStream] refuses, so the reply
    is the 400 of the error middleware. An open range [bytes=a-] that
    starts at the end of the file or past it (every open range, on an
    empty file) is refused in the same way: its end [total-1] lies before
    its start. *)
Theorem suffix_and_late_ranges_refused (m : gmap string Fs.node)
    (filename : string) (nd : Fs.node) (a b : Z) :
  m !! filename = Some nd → Fs.stat_throws nd = false →
  0 ≤ a → 0 ≤ b →
  Stream.serve (Some m) filename (Some (Stream.suffix_range_header b))
  = Stream.Thrown ∧
  (Fs.size nd ≤ a →
   Stream.serve (Some m) filename (Some (Stream.open_range_header a))
   = Stream.Thrown).
Proof.
  intros Hm Hs Ha Hb. split.
  - rewrite (serve_found m filename nd) by done. cbv zeta.
    assert (Js.truthy_string (Some (Stream.suffix_range_header b)) = true)
      as -> by reflexivity.
    cbn [from_option id]. unfold Stream.suffix_range_header.
    change ("bytes=-" +:+ Stream.render (Some b))
      with ("bytes=" +:+ String "-" (Stream.render (Some b))).
    rewrite replace_first_bytes, render_nonneg by done.
    rewrite split_cons. cbn [Ascii.eqb Bool.eqb].
    rewrite split_digits by apply render_nat_digits.
    cbn [lookup list_lookup].
    rewrite render_nat_nonempty. cbn [negb].
    rewrite parseInt_render_nat by lia. reflexivity.
  - intros Hlate.
    rewrite (serve_found m filename nd) by done. cbv zeta.
    assert (Js.truthy_string (Some (Stream.open_range_header a)) = true)
      as -> by reflexivity.
    cbn [from_option id]. rewrite open_range_parts by lia.
    cbn [lookup list_lookup].
    rewrite !parseInt_render_nat by lia.
    change (negb (String.eqb EmptyString EmptyString)) with false. cbv iota.
    by rewrite createReadStream_rejects by lia.
Qed.

Lemma suffix_and_late_ranges_refused_witness :
  stream_demo_uploads !! "a.mp4"%string
    = Some (Fs.mkNode true 0 1000 false false) ∧
  Stream.serve (Some stream_demo_uploads) "a.mp4" (Some "bytes=-500"%string)
  = Stream.Thrown ∧
  Stream.serve (Some stream_demo_uploads) "a.mp4" (Some "bytes=1000-"%string)
  = Stream.Thrown.
Proof.
  split; [reflexivity|].
  pose proof (suffix_and_late_ranges_refused stream_demo_uploads "a.mp4"
                (Fs.mkNode true 0 1000 false false) 1000 500
                eq_refl eq_refl ltac:(lia) ltac:(lia)) as [H1 H2].
  split; [exact H1|]. apply H2. simpl. lia.
Defined.



(** ** Text escaping: composition, size and what is lost *)

Section EscapeMore.
Import Routes.

Lemma escapedText_bind (t : units) : escapedText t = t ≫= escape_unit.
Proof.
  induction t as [|x t IH]; [done|].
  by rewrite escapedText_cons, bind_cons, IH.
Qed.

Lemma escape_unit_plain (x : N) : special x = false → escape_unit x = [x].
Proof.
  unfold special, escape_unit. intros H.
  repeat (apply orb_false_elim in H as [H ?]).
  by repeat match goal with E : N.eqb _ _ = false |- _ => rewrite E; clear E end.
Qed.

Lemma escape_unit_length (x : N) :
  (1 ≤ length (escape_unit x) ≤ 2)%nat.
Proof. unfold escape_unit. repeat case_match; simpl; lia. Qed.

Lemma literal_escapedText (t : units) :
  literal (escapedText t) = replace_all APOSTROPHE [RIGHT_QUOTE] t.
Proof.
  induction t as [|x t IH]; [done|].
  by rewrite escapedText_cons, literal_escape_unit, IH, apostrophe_replaced.
Qed.

Lemma replace_all_absent (c : N) (r t : units) :
  c ∉ t → replace_all c r t = t.
Proof.
  induction t as [|x t IH]; intros Hc; [done|].
  unfold replace_all in *. rewrite bind_cons.
  destruct (N.eqb_spec x c) as [->|?]; [exfalso; apply Hc; left|].
  rewrite IH; [done|]. intros Hin. apply Hc. by right.
Qed.

Lemma legacy_escapedText_app (a b : units) :
  Legacy.escapedText (a ++ b) = Legacy.escapedText a ++ Legacy.escapedText b.
Proof. unfold Legacy.escapedText. by rewrite !replace_all_app. Qed.

Lemma legacy_escapedText_one (x : N) :
  Legacy.escapedText [x] = Legacy.escape_unit x.
Proof.
  unfold Legacy.escapedText, Legacy.escape_unit. cbv zeta.
  rewrite (replace_all_one BACKSLASH).
  destruct (N.eqb_spec x BACKSLASH) as [->|?]; [reflexivity|].
  rewrite (replace_all_one APOSTROPHE).
  destruct (N.eqb_spec x APOSTROPHE) as [->|?]; [reflexivity|].
  rewrite (replace_all_one COLON).
  destruct (N.eqb_spec x COLON) as [->|?]; [reflexivity|].
  rewrite (replace_all_one SEMICOLON).
  destruct (N.eqb_spec x SEMICOLON) as [->|?]; [reflexivity|].
  reflexivity.
Qed.

End EscapeMore.

(** X10: The six [replace] calls of [escapedText] act as one pass over the
    text, code unit by code unit, so escaping a concatenation is
    concatenating the escaped parts. *)
Theorem escapedText_one_pass (a b : Routes.units) :
  Routes.escapedText a = a ≫= Routes.escape_unit ∧
  Routes.escapedText (a ++ b) = Routes.escapedText a ++ Routes.escapedText b.
Proof.
  assert (∀ t, Routes.escapedText t = t ≫= Routes.escape_unit) as Hpass.
  { induction t as [|x t IH]; [done|].
    by rewrite escapedText_cons, bind_cons, IH. }
  split; [apply Hpass|].
  by rewrite !Hpass, bind_app.
Qed.

(** X11: A text without special characters is not changed by the escaping,
    and no text grows to more than twice its length or shrinks. *)
Theorem escapedText_plain_and_length (t : Routes.units) :
  (Forall (λ c, Routes.special c = false) t → Routes.escapedText t = t) ∧
  (length t ≤ length (Routes.escapedText t) ≤ 2 * length t)%nat.
Proof.
  rewrite escapedText_bind. split.
  - induction 1 as [|x t Hx _ IH]; [done|].
    by rewrite bind_cons, IH, escape_unit_plain.
  - induction t as [|x t IH]; [simpl; lia|].
    rewrite bind_cons, length_app. pose proof (escape_unit_length x).
    simpl. lia.
Qed.

(** X12: The escaping loses one distinction only: two texts with the same
    escaped form differ at most in apostrophes against right single
    quotation marks, which do collide; texts without apostrophes are
    told apart. *)
Theorem escapedText_injective (a b : Routes.units) :
  (Routes.escapedText a = Routes.escapedText b →
   Routes.replace_all Routes.APOSTROPHE [Routes.RIGHT_QUOTE] a
   = Routes.replace_all Routes.APOSTROPHE [Routes.RIGHT_QUOTE] b) ∧
  (Routes.escapedText a = Routes.escapedText b →
   Routes.APOSTROPHE ∉ a → Routes.APOSTROPHE ∉ b → a = b) ∧
  Routes.escapedText [Routes.APOSTROPHE]
  = Routes.escapedText [Routes.RIGHT_QUOTE].
Proof.
  split; [|split].
  - intros H. by rewrite <- !literal_escapedText, H.
  - intros H Ha Hb.
    rewrite <- (replace_all_absent Routes.APOSTROPHE [Routes.RIGHT_QUOTE] a Ha).
    rewrite <- (replace_all_absent Routes.APOSTROPHE [Routes.RIGHT_QUOTE] b Hb).
    by rewrite <- !literal_escapedText, H.
  - reflexivity.
Qed.

Lemma escapedText_injective_witness :
  Routes.escapedText (Routes.units_of "a:b")
  = Routes.escapedText (Routes.units_of "a:b") ∧
  (Routes.APOSTROPHE ∉ Routes.units_of "a:b") ∧
  Routes.units_of "a:b" = Routes.units_of "a:b".
Proof.
  assert (Routes.APOSTROPHE ∉ Routes.units_of "a:b") as Hno.
  { intros Hin. by apply (bool_decide_eq_true_2 _) in Hin. }
  split; [reflexivity|]. split; [exact Hno|].
  apply (escapedText_injective (Routes.units_of "a:b")
           (Routes.units_of "a:b")); [reflexivity|exact Hno|exact Hno].
Defined.

Lemma escapedText_plain_and_length_witness :
  Forall (λ c, Routes.special c = false) (Routes.units_of "Hello") ∧
  Routes.escapedText (Routes.units_of "Hello") = Routes.units_of "Hello".
Proof.
  assert (Forall (λ c, Routes.special c = false) (Routes.units_of "Hello"))
    as Hplain by (repeat constructor).
  split; [exact Hplain|].
  by apply (escapedText_plain_and_length (Routes.units_of "Hello")).
Defined.

(** X13: The escaping of the route module without a queue is one pass too,
    with its own table, and leaves every text without backslash,
    apostrophe, colon and semicolon as it is: square brackets and
    percent signs go through unescaped. *)
Theorem legacy_escapedText_one_pass (t : Routes.units) :
  Legacy.escapedText t = t ≫= Legacy.escape_unit ∧
  (Forall (λ c, Legacy.special c = false) t → Legacy.escapedText t = t) ∧
  Legacy.special Routes.LBRACKET = false ∧
  Legacy.special Routes.RBRACKET = false ∧
  Legacy.special Routes.PERCENT = false.
Proof.
  assert (∀ u, Legacy.escapedText u = u ≫= Legacy.escape_unit) as Hbind.
  { induction u as [|x u IH]; [done|].
    rewrite bind_cons, <- IH, <- legacy_escapedText_one.
    by rewrite <- legacy_escapedText_app. }
  split; [apply Hbind|]. split; [|done].
  rewrite Hbind. induction 1 as [|x u Hx _ IH]; [done|].
  rewrite bind_cons, IH. f_equal.
  unfold Legacy.special, Legacy.escape_unit in *. cbv zeta.
  repeat (apply orb_false_elim in Hx as [Hx ?]).
  by repeat match goal with E : N.eqb _ _ = false |- _ => rewrite E; clear E end.
Qed.

Lemma legacy_escapedText_one_pass_witness :
  Forall (λ c, Legacy.special c = false) (Routes.units_of "[50%]") ∧
  Legacy.escapedText (Routes.units_of "[50%]") = Routes.units_of "[50%]".
Proof.
  assert (Forall (λ c, Legacy.special c = false) (Routes.units_of "[50%]"))
    as Hplain by (repeat constructor).
  split; [exact Hplain|].
  by apply (legacy_escapedText_one_pass (Routes.units_of "[50%]")).
Defined.

(** ** The handlers: what each request ends in *)

(** X14: Whatever the request, the files and the probe are, each of the five
    transform handlers ends in one of two ways: a refusal with status
    400 or 404 that leaves the queue as it was, or exactly one call of
    [enqueueJob] with no reply sent yet. *)
Theorem handlers_refuse_or_enqueue (parseFloatText : string → Js.number)
    (fs : Fs.t) (probed : option Routes.metadata) (fontFile : option string)
    (uuid : string) (q : Queue.state) :
  (∀ body, Routes.refused_or_queued q
             (Routes.postTrim parseFloatText fs uuid q body)) ∧
  (∀ body, Routes.refused_or_queued q (Routes.postFilter fs uuid q body)) ∧
  (∀ body, Routes.refused_or_queued q
             (Routes.postText fs fontFile uuid q body)) ∧
  (∀ body, Routes.refused_or_queued q (Routes.postMerge fs uuid q body)) ∧
  (∀ body, Routes.refused_or_queued q
             (Routes.postAudio parseFloatText fs probed uuid q body)).
Proof.
  unfold Routes.refused_or_queued.
  repeat split; intros body.
  - unfold Routes.postTrim. repeat case_match; eauto 10.
  - unfold Routes.postFilter. repeat case_match; eauto 10.
  - unfold Routes.postText.
    destruct (negb _ || negb _); [eauto 10|].
    destruct (negb _); eauto 10.
  - unfold Routes.postMerge. repeat case_match; eauto 10.
  - unfold Routes.postAudio. repeat case_match; eauto 10.
Qed.

Section CatalogueFacts.
Import Js Routes.

Lemma filterMap_entries (name frag : string) :
  filterMap !! name = Some frag → name ≠ EmptyString ∧ frag ≠ EmptyString.
Proof.
  unfold filterMap. intros H%elem_of_list_to_map_2.
  repeat (apply elem_of_cons in H as [[= -> ->]|H]; [done|]).
  by apply elem_of_nil in H.
Qed.

Lemma find_first {A} (p : A → bool) (l : list A) (pre post : list A) (x : A) :
  l = pre ++ x :: post → Forall (λ y, p y = false) pre → p x = true →
  List.find p l = Some x.
Proof.
  intros -> Hpre Hx. induction Hpre as [|y pre Hy _ IH]; simpl.
  - by rewrite Hx.
  - by rewrite Hy.
Qed.

Lemma find_none_all {A} (p : A → bool) (l : list A) :
  Forall (λ y, p y = false) l → List.find p l = None.
Proof. induction 1 as [|y l Hy _ IH]; simpl; [done|by rewrite Hy]. Qed.

Lemma bind_pairs_length {A B} (f : A → list B) (l : list A) :
  (∀ x, length (f x) = 2%nat) → length (l ≫= f) = (2 * length l)%nat.
Proof.
  intros Hf. induction l as [|x l IH]; [done|].
  rewrite bind_cons, length_app, Hf, IH. simpl. lia.
Qed.

Lemma merge_filterParts_length (n : nat) :
  length (merge_filterParts n) = (2 * n + 1)%nat.
Proof.
  unfold merge_filterParts. rewrite length_app, bind_pairs_length by done.
  rewrite length_seq. simpl. lia.
Qed.

End CatalogueFacts.

(** X15: Which filter names reach the queue: for a request on an existing
    file, a job is enqueued exactly when the name is one of the twelve
    keys of [filterMap] or a property name every object inherits; for a
    key of [filterMap] the job applies the fragment stored under it,
    followed by the scale stage, and writes [filtered_<uuid>.mp4]. *)
Theorem filter_names_accepted (fs : Fs.t) (uuid : string) (q : Queue.state)
    (body : Routes.filter_body) (file name : string) :
  Routes.filter_filename body = Some file → file ≠ EmptyString →
  Routes.filter body = Some name → name ≠ EmptyString →
  Fs.existsSync (Fs.uploads fs) file = true →
  (is_Some (Routes.enqueued (Routes.postFilter fs uuid q body))
   ↔ is_Some (Routes.filterMap !! name) ∨ name ∈ Routes.Object_prototype) ∧
  (∀ frag, Routes.filterMap !! name = Some frag →
     ∃ j, Routes.postFilter fs uuid q body = Routes.submit q j ∧
          Routes.inputs (Routes.cmd j) = [file] ∧
          Routes.videoFilters (Routes.cmd j)
          = [[Js.Val (Js.Text frag)]; [Js.Lit "scale=480:-2"]] ∧
          Routes.outputOptions (Routes.cmd j) = Routes.FFMPEG_NO_SCALE_OPTS ∧
          Routes.output (Routes.cmd j) = "filtered_" +:+ uuid +:+ ".mp4").
Proof.
  intros Hf Hfile Hn Hname Hex.
  unfold Routes.postFilter. rewrite Hf, Hn.
  rewrite !truthy_string_Some by done. cbn [negb orb from_option id].
  rewrite Hex. cbn [negb]. split.
  - unfold Routes.get_property.
    destruct (Routes.filterMap !! name) as [frag|] eqn:Hown.
    + destruct (filterMap_entries name frag Hown) as [_ Hfrag].
      cbn [Js.truthy]. destruct (String.eqb_spec frag EmptyString); [done|].
      cbn. split; eauto.
    + destruct (decide (name ∈ Routes.Object_prototype)) as [Hin|Hin].
      * rewrite bool_decide_eq_true_2 by done. cbn. split; eauto.
      * rewrite bool_decide_eq_false_2 by done. cbn. split.
        -- by intros [? ?].
        -- intros [[? ?]|?]; done.
  - intros frag Hown. unfold Routes.get_property. rewrite Hown.
    destruct (filterMap_entries name frag Hown) as [_ Hfrag].
    cbn [Js.truthy]. destruct (String.eqb_spec frag EmptyString); [done|].
    cbn [negb]. eexists. split; [reflexivity|]. done.
Qed.

Lemma filter_names_accepted_witness :
  Routes.filter_filename filter_blur = Some "clip.mp4"%string ∧
  Routes.filter filter_blur = Some "blur"%string ∧
  Fs.existsSync (Fs.uploads demo_fs) "clip.mp4" = true ∧
  Routes.filterMap !! "blur"%string = Some "boxblur=5:1"%string ∧
  ∃ j, Routes.postFilter demo_fs "u" Queue.init filter_blur
       = Routes.submit Queue.init j ∧
       Routes.videoFilters (Routes.cmd j)
       = [[Js.Val (Js.Text "boxblur=5:1")]; [Js.Lit "scale=480:-2"]].
Proof.
  split; [reflexivity|]. split; [reflexivity|]. split; [reflexivity|].
  assert (Routes.filterMap !! "blur"%string = Some "boxblur=5:1"%string)
    as Hblur by (vm_compute; reflexivity).
  split; [exact Hblur|].
  destruct (filter_names_accepted demo_fs "u" Queue.init filter_blur
              "clip.mp4" "blur" eq_refl ltac:(discriminate) eq_refl
              ltac:(discriminate) eq_refl) as [_ H].
  destruct (H _ Hblur) as (j & Hj & _ & Hv & _).
  exists j. split; [exact Hj|exact Hv].
Defined.

(** X16: A merge request with at least two names is refused with 404 for the
    first name, in the order of the request, that is not in the uploads
    directory; when all are there, one job is enqueued whose inputs are
    the names in order and whose filter graph has two stages per input
    and one concatenation stage. *)
Theorem merge_reports_first_missing (fs : Fs.t) (uuid : string)
    (q : Queue.state) (body : Routes.merge_body) (names : list string) :
  Routes.filenames body = Some names → (2 ≤ length names)%nat →
  (∀ pre f post,
     names = pre ++ f :: post →
     Forall (λ g, Fs.existsSync (Fs.uploads fs) g = true) pre →
     Fs.existsSync (Fs.uploads fs) f = false →
     Routes.postMerge fs uuid q body
     = Routes.refuse q 404 ("File not found: " +:+ f)) ∧
  (Forall (λ g, Fs.existsSync (Fs.uploads fs) g = true) names →
   ∃ j, Routes.postMerge fs uuid q body = Routes.submit q j ∧
        Routes.inputs (Routes.cmd j) = names ∧
        length (Routes.complexFilter (Routes.cmd j))
        = (2 * length names + 1)%nat).
Proof.
  intros Hb Hlen. unfold Routes.postMerge. rewrite Hb.
  rewrite bool_decide_eq_false_2 by lia. split.
  - intros pre f post Hnames Hpre Hf.
    rewrite (find_first _ names pre post f Hnames).
    + done.
    + eapply Forall_impl; [exact Hpre|]. by intros g ->.
    + by rewrite Hf.
  - intros Hall. rewrite find_none_all.
    + eexists. split; [reflexivity|]. cbn. split; [done|].
      apply merge_filterParts_length.
    + eapply Forall_impl; [exact Hall|]. by intros g ->.
Qed.

Lemma merge_reports_first_missing_witness :
  Routes.filenames merge_one_missing
    = Some ["clip.mp4"; "gone.mp4"; "lost.mp4"]%string ∧
  (2 ≤ length ["clip.mp4"; "gone.mp4"; "lost.mp4"]%string)%nat ∧
  Routes.postMerge demo_fs "u" Queue.init merge_one_missing
  = Routes.refuse Queue.init 404 "File not found: gone.mp4".
Proof.
  split; [reflexivity|]. split; [simpl; lia|].
  destruct (merge_reports_first_missing demo_fs "u" Queue.init
              merge_one_missing ["clip.mp4"; "gone.mp4"; "lost.mp4"]%string
              eq_refl ltac:(simpl; lia)) as [H _].
  apply (H ["clip.mp4"%string] "gone.mp4"%string ["lost.mp4"%string]
           eq_refl).
  - repeat constructor.
  - reflexivity.
Defined.

(** ** The font path of the text overlay *)

Section FontFacts.
Import Stdlib.Strings.String.
Import Font.
Local Open Scope string_scope.

Lemma no_backslash_app (a b : string) :
  no_backslash (a +:+ b) = no_backslash a && no_backslash b.
Proof.
  induction a as [|x a IH]; [done|].
  change (String x a +:+ b) with (String x (a +:+ b)).
  cbn [no_backslash]. by rewrite IH, andb_assoc.
Qed.

Lemma replace_backslash_clean (s : string) :
  no_backslash (replace_char backslash "/" s) = true.
Proof.
  induction s as [|x s IH]; [done|].
  cbn [replace_char]. rewrite no_backslash_app, IH, andb_true_r.
  destruct (Ascii.eqb_spec x backslash) as [->|Hx]; [done|].
  cbn [no_backslash]. rewrite andb_true_r.
  by destruct (Ascii.eqb_spec x backslash).
Qed.

Lemma replace_colon_escaped (s : string) :
  no_backslash s = true →
  colons_escaped (replace_char ":" (String backslash ":") s) = true.
Proof.
  induction s as [|x s IH]; [done|].
  cbn [no_backslash]. intros [Hx Hs]%andb_prop.
  cbn [replace_char].
  destruct (Ascii.eqb_spec x ":") as [->|Hc].
  - cbn. by apply IH.
  - change (String x EmptyString +:+ ?r) with (String x r).
    cbn [colons_escaped].
    apply negb_true_iff in Hx. rewrite Hx.
    destruct (Ascii.eqb_spec x ":"); [done|]. cbn. by apply IH.
Qed.

End FontFacts.

(** X17: [getSystemFont] returns [null] exactly when none of the six
    candidates exists; otherwise it returns the first existing candidate
    in the order of the list, with its backslashes turned into slashes
    and a backslash put before every colon; in the path it returns every
    colon follows a backslash and every backslash is followed by a
    colon. *)
Theorem getSystemFont_first_escaped (exists_ : string → bool) :
  (Font.getSystemFont exists_ = None
   ↔ Forall (λ f, exists_ f = false) Font.candidates) ∧
  (∀ pre f post,
     Font.candidates = pre ++ f :: post →
     Forall (λ g, exists_ g = false) pre → exists_ f = true →
     Font.getSystemFont exists_ = Some (Font.escape_path f)) ∧
  (∀ r, Font.getSystemFont exists_ = Some r →
     Font.colons_escaped r = true ∧ r ≠ EmptyString).
Proof.
  assert (∀ f, Font.colons_escaped (Font.escape_path f) = true) as Hesc.
  { intros f. apply replace_colon_escaped, replace_backslash_clean. }
  split; [|split].
  - unfold Font.getSystemFont. split.
    + intros Hnone. apply fmap_None in Hnone.
      apply Forall_forall. intros f Hf.
      destruct (exists_ f) eqn:E; [|done].
      apply list_elem_of_In in Hf.
      by pose proof (List.find_none _ _ Hnone f Hf) as Hfalse; congruence.
    + intros Hall. by rewrite find_none_all.
  - intros pre f post Hc Hpre Hf. unfold Font.getSystemFont.
    by rewrite (find_first _ _ pre post f Hc Hpre Hf).
  - unfold Font.getSystemFont. intros r Hr.
    apply fmap_Some in Hr as (f & Hfind & ->). split; [apply Hesc|].
    apply List.find_some in Hfind as [Hin _].
    apply list_elem_of_In in Hin. unfold Font.candidates in Hin.
    repeat (apply elem_of_cons in Hin as [->|Hin]; [by vm_compute|]).
    by apply elem_of_nil in Hin.
Qed.

Lemma getSystemFont_first_escaped_witness :
  Font.getSystemFont font_on_windows
  = Some (Font.escape_path "C:/Windows/Fonts/segoeui.ttf") ∧
  Font.colons_escaped (Font.escape_path "C:/Windows/Fonts/segoeui.ttf") = true.
Proof.
  destruct (getSystemFont_first_escaped font_on_windows) as (_ & Hfirst & Hesc).
  assert (Font.getSystemFont font_on_windows
          = Some (Font.escape_path "C:/Windows/Fonts/segoeui.ttf")) as H.
  { apply (Hfirst
             ["/usr/share/fonts/truetype/dejavu/DejaVuSans.ttf";
              "/usr/share/fonts/truetype/liberation/LiberationSans-Regular.ttf";
              "/usr/share/fonts/truetype/freefont/FreeSans.ttf";
              "C:/Windows/Fonts/arial.ttf"]%string
             "C:/Windows/Fonts/segoeui.ttf"%string
             ["C:/Windows/Fonts/tahoma.ttf"%string] eq_refl);
      [repeat constructor|reflexivity]. }
  split; [exact H|]. apply (Hesc _ H).
Defined.

(** ** Uploads *)

Section UploadFacts.
Import Stdlib.Strings.String.
Import Upload.
Local Open Scope string_scope.

Lemma prefix_nil (s : string) : String.prefix EmptyString s = true.
Proof. by destruct s. Qed.

Lemma prefix_cons (a b : ascii) (p s : string) :
  String.prefix (String a p) (String b s)
  = if Ascii.eqb a b then String.prefix p s else false.
Proof.
  cbn [String.prefix]. destruct (ascii_dec a b) as [->|Hne].
  - by rewrite Ascii.eqb_refl.
  - by destruct (Ascii.eqb_spec a b).
Qed.

Lemma prefix_spec (pat : string) : ∀ s,
  String.prefix pat s = true ↔ ∃ post, s = pat +:+ post.
Proof.
  induction pat as [|a pat IH]; intros s.
  - rewrite prefix_nil. split; [eauto|done].
  - destruct s as [|b s].
    + split; [done|]. by intros [post ?].
    + rewrite prefix_cons. destruct (Ascii.eqb_spec a b) as [->|Hne].
      * rewrite IH. split.
        -- intros [post ->]. by exists post.
        -- intros [post [= ->]]. by exists post.
      * split; [done|]. intros [post [= ? ?]]. done.
Qed.

Lemma contains_cons (pat : string) (c : ascii) (s : string) :
  contains pat (String c s)
  = String.prefix pat (String c s) || contains pat s.
Proof. reflexivity. Qed.

(** [contains] is the search for an occurrence. *)
Lemma contains_spec (pat s : string) :
  contains pat s = true ↔ ∃ pre post, s = pre +:+ pat +:+ post.
Proof.
  induction s as [|c s IH].
  - cbn [contains]. rewrite orb_false_r, prefix_spec. split.
    + intros [post ->]. by exists EmptyString, post.
    + intros (pre & post & H). destruct pre; [by exists post|done].
  - rewrite contains_cons. rewrite orb_true_iff, prefix_spec, IH. split.
    + intros [[post ->]|(pre & post & ->)].
      * by exists EmptyString, post.
      * by exists (String c pre), post.
    + intros (pre & post & H). destruct pre as [|c' pre].
      * left. by exists post.
      * right. injection H as -> ->. by exists pre, post.
Qed.

End UploadFacts.

(** X18: The upload filter lets a file through exactly when its declared
    type holds [video] or [audio] somewhere (not only at the start);
    a file that is not let through is answered with status 400 and the
    text of the filter, and never reaches the handler. *)
Theorem upload_type_gate (mimetype : string) (too_large : bool)
    (f : Upload.file) (probed : option Upload.probe) :
  (Upload.allowed mimetype = true
   ↔ ∃ pre post, mimetype = pre +:+ "video" +:+ post
                 ∨ mimetype = pre +:+ "audio" +:+ post) ∧
  (Upload.allowed mimetype = false →
   Upload.upload mimetype too_large f probed
   = Upload.Refused 400 "Only video/audio files are allowed") ∧
  (Upload.allowed mimetype = true → too_large = true →
   Upload.upload mimetype too_large f probed
   = Upload.Refused 413 "File too large. Max size is 50MB.") ∧
  (Upload.allowed mimetype = true → too_large = false →
   Upload.upload mimetype too_large f probed
   = Upload.postUpload (Some f) probed).
Proof.
  split; [|split; [|split]].
  - unfold Upload.allowed. rewrite orb_true_iff, !contains_spec. split.
    + intros [(pre & post & ->)|(pre & post & ->)]; exists pre, post; eauto.
    + intros (pre & post & [->| ->]); [left|right]; eauto.
  - intros H. unfold Upload.upload, Upload.fileFilter. by rewrite H.
  - intros H ->. unfold Upload.upload, Upload.fileFilter. by rewrite H.
  - intros H ->. unfold Upload.upload, Upload.fileFilter. by rewrite H.
Qed.

Lemma upload_type_gate_witness :
  Upload.allowed "text/plain" = false ∧
  Upload.upload "text/plain" false demo_stored_file None
  = Upload.Refused 400 "Only video/audio files are allowed".
Proof.
  split; [reflexivity|].
  by apply (upload_type_gate "text/plain" false demo_stored_file None).
Defined.

(** X19: Once a file is stored, the upload handler replies with the stored
    name, the original name and the size whatever the probe says, and
    the three probed numbers of the reply are never missing: each is a
    truthy value of the probe or the number 0; after a failed probe all
    three are 0. Only a probe without [format] makes the callback
    throw. *)
Theorem upload_reply_defaults (f : Upload.file)
    (probed : option Upload.probe) :
  (probed = None →
   Upload.postUpload (Some f) probed
   = Upload.Stored
       {| Upload.up_filename := Upload.filename f;
          Upload.up_originalName := Upload.originalname f;
          Upload.up_size := Upload.size f;
          Upload.up_duration := Upload.zero; Upload.up_width := Upload.zero;
          Upload.up_height := Upload.zero |}) ∧
  (∀ metadata fmt,
     probed = Some metadata → Upload.format metadata = Some fmt →
     ∃ b, Upload.postUpload (Some f) probed = Upload.Stored b ∧
          Upload.up_filename b = Upload.filename f ∧
          Upload.up_originalName b = Upload.originalname f ∧
          Upload.up_size b = Upload.size f ∧
          Forall (λ v, Js.truthy v = true ∨ v = Upload.zero)
            [Upload.up_duration b; Upload.up_width b; Upload.up_height b] ∧
          (Forall (λ s, Upload.codec_type s ≠ "video"%string)
             (default [] (Upload.streams metadata)) →
           Upload.up_width b = Upload.zero ∧
           Upload.up_height b = Upload.zero)) ∧
  (∀ metadata,
     probed = Some metadata → Upload.format metadata = None →
     Upload.postUpload (Some f) probed = Upload.Thrown).
Proof.
  assert (∀ v, Js.truthy (Upload.or_zero v) = true
               ∨ Upload.or_zero v = Upload.zero) as Hor.
  { intros v. unfold Upload.or_zero. destruct (Js.truthy v) eqn:E; eauto. }
  split; [|split].
  - by intros ->.
  - intros metadata fmt -> Hfmt. cbn [Upload.postUpload]. rewrite Hfmt.
    eexists. split; [reflexivity|].
    cbn [Upload.up_filename Upload.up_originalName Upload.up_size
         Upload.up_duration Upload.up_width Upload.up_height].
    split; [done|]. split; [done|]. split; [done|]. split.
    + do 3 (constructor; [apply Hor|]). constructor.
    + intros Hnone. rewrite find_none_all; [done|].
      eapply Forall_impl; [exact Hnone|]. intros s Hs. cbn in Hs.
      by destruct (String.eqb_spec (Upload.codec_type s) "video").
  - intros metadata -> Hfmt. cbn [Upload.postUpload]. by rewrite Hfmt.
Qed.

Lemma upload_reply_defaults_witness :
  Upload.postUpload (Some demo_stored_file) None
  = Upload.Stored
      {| Upload.up_filename := "0f0e.mp4";
         Upload.up_originalName := "holiday.mp4";
         Upload.up_size := 1000;
         Upload.up_duration := Upload.zero; Upload.up_width := Upload.zero;
         Upload.up_height := Upload.zero |}.
Proof.
  by apply (upload_reply_defaults demo_stored_file None).
Defined.

(** ** Download, file removal and the names of the outputs *)

(** X20: A download looks in the processed directory first: a name that is
    there is served from there even when the uploads directory has the
    same name; a name that is only in the uploads directory is served
    from there; the reply is 404 exactly when the name is in neither. *)
Theorem export_prefers_processed (fs : Fs.t) (filename : string) :
  (Fs.existsSync (Fs.processed fs) filename = true →
   Exporting.getExport fs filename
   = Exporting.Download Fs.PROCESSED_DIR filename) ∧
  (Fs.existsSync (Fs.processed fs) filename = false →
   Fs.existsSync (Fs.uploads fs) filename = true →
   Exporting.getExport fs filename
   = Exporting.Download Fs.UPLOADS_DIR filename) ∧
  (Exporting.getExport fs filename = Exporting.NotFound
   ↔ Fs.existsSync (Fs.processed fs) filename = false
     ∧ Fs.existsSync (Fs.uploads fs) filename = false) ∧
  (∀ d name, Exporting.getExport fs filename = Exporting.Download d name →
     name = filename ∧ Fs.existsSync (Fs.get d fs) filename = true).
Proof.
  unfold Exporting.getExport.
  destruct (Fs.existsSync (Fs.processed fs) filename) eqn:Hp;
    destruct (Fs.existsSync (Fs.uploads fs) filename) eqn:Hu;
    (split; [done|]); (split; [done|]); (split; [split; [done|by intros [? ?]]|]);
    intros d name H; try done; injection H as <- <-; done.
Qed.

Lemma export_prefers_processed_witness :
  Fs.existsSync (Fs.processed demo_fs) "clip.mp4" = false ∧
  Fs.existsSync (Fs.uploads demo_fs) "clip.mp4" = true ∧
  Exporting.getExport demo_fs "clip.mp4"
  = Exporting.Download Fs.UPLOADS_DIR "clip.mp4".
Proof.
  split; [reflexivity|]. split; [reflexivity|].
  by apply (export_prefers_processed demo_fs "clip.mp4").
Defined.

Section DeleteFacts.

Lemma get_set (d : Fs.dir_name) (c : Fs.directory) (fs : Fs.t) :
  Fs.get d (Fs.set d c fs) = c.
Proof. by destruct d. Qed.

Lemma get_set_other (d d' : Fs.dir_name) (c : Fs.directory) (fs : Fs.t) :
  d ≠ d' → Fs.get d' (Fs.set d c fs) = Fs.get d' fs.
Proof. by destruct d, d'. Qed.

(** What [safeDelete] leaves of the directory it works in. *)
Lemma safeDelete_lookup (d : Fs.dir_name) (name : string) (fs : Fs.t)
    (m : gmap string Fs.node) :
  Fs.get d fs = Some m →
  ∃ m', Fs.get d (Routes.safeDelete d name fs) = Some m' ∧
        (∀ k, k ≠ name → m' !! k = m !! k) ∧
        m' !! name
        = match m !! name with
          | Some nd =>
              if Fs.unlink_throws nd || negb (Fs.isFile nd) then Some nd
              else None
          | None => None
          end.
Proof.
  intros Hd. unfold Routes.safeDelete, Fs.existsSync, Fs.unlinkSync.
  rewrite Hd. destruct (m !! name) as [nd|] eqn:Hn.
  - rewrite bool_decide_eq_true_2 by eauto.
    destruct (Fs.unlink_throws nd || negb (Fs.isFile nd)).
    + exists m. by rewrite Hd, Hn.
    + exists (delete name m). rewrite get_set. split; [done|]. split.
      * intros k Hk. by rewrite lookup_delete_ne.
      * apply lookup_delete_eq.
  - rewrite bool_decide_eq_false_2 by (by intros [? ?]).
    exists m. by rewrite Hd, Hn.
Qed.

Lemma safeDelete_other_dir (d d' : Fs.dir_name) (name : string) (fs : Fs.t) :
  d ≠ d' →
  Fs.get d' (Routes.safeDelete d name fs) = Fs.get d' fs.
Proof.
  intros Hne. unfold Routes.safeDelete.
  destruct (Fs.get d fs) as [m|]; [|done].
  destruct (Fs.existsSync (Some m) name); [|done].
  destruct (Fs.unlinkSync m name); [|done].
  by apply get_set_other.
Qed.

Lemma safeDelete_cases (d : Fs.dir_name) (name : string) (fs : Fs.t) :
  Routes.safeDelete d name fs = fs
  ∨ ∃ m, Routes.safeDelete d name fs = Fs.set d (Some (delete name m)) fs.
Proof.
  unfold Routes.safeDelete, Fs.unlinkSync.
  destruct (Fs.get d fs) as [m|]; [|by left].
  destruct (Fs.existsSync (Some m) name); [|by left].
  destruct (m !! name) as [nd|]; [|by left].
  destruct (Fs.unlink_throws nd || negb (Fs.isFile nd)); [by left|].
  right. by exists m.
Qed.

End DeleteFacts.

(** X21: [safeDelete] removes the named entry when it is a regular file that
    can be unlinked, and otherwise changes nothing; it touches no other
    entry and no other directory, a missing file or directory is not an
    error, and deleting twice is deleting once. *)
Theorem safeDelete_removes_one (d : Fs.dir_name) (name : string) (fs : Fs.t) :
  (∀ m, Fs.get d fs = Some m →
     ∃ m', Fs.get d (Routes.safeDelete d name fs) = Some m' ∧
           (∀ k, k ≠ name → m' !! k = m !! k) ∧
           (∀ nd, m !! name = Some nd →
              Fs.isFile nd = true → Fs.unlink_throws nd = false →
              m' !! name = None) ∧
           (∀ nd, m !! name = Some nd →
              Fs.isFile nd = false ∨ Fs.unlink_throws nd = true →
              m' = m) ∧
           (m !! name = None → m' = m)) ∧
  (Fs.get d fs = None → Routes.safeDelete d name fs = fs) ∧
  (∀ d', d ≠ d' → Fs.get d' (Routes.safeDelete d name fs) = Fs.get d' fs) ∧
  Routes.safeDelete d name (Routes.safeDelete d name fs)
  = Routes.safeDelete d name fs.
Proof.
  split; [|split; [|split]].
  - intros m Hd.
    destruct (safeDelete_lookup d name fs m Hd) as (m' & Hm' & Hother & Hname).
    exists m'. split; [done|]. split; [done|]. split; [|split].
    + intros nd Hnd Hfile Hu. by rewrite Hname, Hnd, Hfile, Hu.
    + intros nd Hnd Hcannot. apply map_eq. intros k.
      destruct (decide (k = name)) as [->|Hk]; [|by apply Hother].
      rewrite Hname, Hnd. by destruct Hcannot as [-> | ->];
        rewrite ?orb_true_r.
    + intros Hnone. apply map_eq. intros k.
      destruct (decide (k = name)) as [->|Hk]; [|by apply Hother].
      by rewrite Hname, Hnone.
  - intros Hd. unfold Routes.safeDelete. by rewrite Hd.
  - intros d' Hne. by apply safeDelete_other_dir.
  - destruct (safeDelete_cases d name fs) as [H|(m & H)].
    + by rewrite !H.
    + rewrite H. unfold Routes.safeDelete, Fs.existsSync.
      rewrite get_set, bool_decide_eq_false_2; [done|].
      rewrite lookup_delete_eq. by intros [? ?].
Qed.

Lemma safeDelete_removes_one_witness :
  Fs.get Fs.UPLOADS_DIR sweep_demo_fs = Some sweep_demo_uploads ∧
  ∃ m', Fs.get Fs.UPLOADS_DIR
          (Routes.safeDelete Fs.UPLOADS_DIR "old.mp4" sweep_demo_fs)
        = Some m' ∧
        m' !! "old.mp4"%string = None ∧
        m' !! "new.mp4"%string = sweep_demo_uploads !! "new.mp4"%string.
Proof.
  split; [reflexivity|].
  destruct (safeDelete_removes_one Fs.UPLOADS_DIR "old.mp4" sweep_demo_fs)
    as [H _].
  destruct (H sweep_demo_uploads eq_refl) as (m' & Hm' & Hother & Hgone & _).
  exists m'. split; [exact Hm'|]. split.
  - apply (Hgone (Fs.mkNode true 1000 10 false false)); reflexivity.
  - apply Hother. discriminate.
Defined.

(** X22: The merge of the route module without a queue cleans up its list
    file after success and after failure alike: when the job is over the
    list file is gone from the processed directory, unless the engine
    left under its name something that cannot be unlinked; every other
    entry and the uploads directory are as the engine left them, and the
    reply follows the engine: success, or 500 with the engine's
    message. *)
Theorem legacy_merge_removes_list (ffmpeg : LegacyMerge.engine)
    (list_name outputFilename : string) (listed : Fs.node) (fs : Fs.t)
    (m : gmap string Fs.node) :
  Fs.processed fs = Some m →
  let fs1 := Fs.set Fs.PROCESSED_DIR (Some (<[list_name := listed]> m)) fs in
  let fs2 := (ffmpeg fs1).1 in
  ∃ fs3 r,
    LegacyMerge.merge_job ffmpeg list_name outputFilename listed fs
    = Some (fs3, r) ∧
    Fs.uploads fs3 = Fs.uploads fs2 ∧
    (∀ m2, Fs.processed fs2 = Some m2 →
       ∃ m3, Fs.processed fs3 = Some m3 ∧
             (∀ k, k ≠ list_name → m3 !! k = m2 !! k) ∧
             (m3 !! list_name = None
              ∨ ∃ nd, m2 !! list_name = Some nd ∧ m3 !! list_name = Some nd ∧
                      (Fs.unlink_throws nd = true ∨ Fs.isFile nd = false))) ∧
    r = match (ffmpeg fs1).2 with
        | Routes.End =>
            Routes.Success outputFilename "Videos merged successfully"
        | Routes.Error message =>
            Routes.Failure 500 "Failed to merge videos" (Some message)
        end.
Proof.
  intros Hp fs1 fs2. unfold LegacyMerge.merge_job. rewrite Hp.
  fold fs1. subst fs2. destruct (ffmpeg fs1) as [fs2 ev]. cbn [fst snd].
  eexists _, _. split; [reflexivity|]. split; [|split; [|done]].
  - apply (safeDelete_other_dir Fs.PROCESSED_DIR Fs.UPLOADS_DIR); done.
  - intros m2 Hm2.
    destruct (safeDelete_lookup Fs.PROCESSED_DIR list_name fs2 m2 Hm2)
      as (m3 & Hm3 & Hother & Hname).
    exists m3. split; [done|]. split; [done|].
    rewrite Hname. destruct (m2 !! list_name) as [nd|]; [|by left].
    destruct (Fs.unlink_throws nd) eqn:Hu; cbn; [right; eauto 6|].
    destruct (Fs.isFile nd) eqn:Hf; cbn; [by left|right; eauto 6].
Qed.

Lemma legacy_merge_removes_list_witness :
  Fs.processed merge_demo_fs
    = Some {[ "merged_a.mp4"%string := Fs.mkNode true 0 10 false false ]} ∧
  LegacyMerge.merge_job idle_failing_engine "list_b.txt" "merged_c.mp4"
    (Fs.mkNode true 0 40 false false) merge_demo_fs
  = Some (merge_demo_fs,
          Routes.Failure 500 "Failed to merge videos"
            (Some "Conversion failed!"%string)).
Proof.
  split; [reflexivity|].
  destruct (legacy_merge_removes_list idle_failing_engine "list_b.txt"
              "merged_c.mp4" (Fs.mkNode true 0 40 false false) merge_demo_fs
              _ eq_refl) as (fs3 & r & Hjob & _).
  rewrite Hjob. vm_compute in Hjob. injection Hjob as <- <-.
  vm_compute. reflexivity.
Defined.

(** X23: The reply of a finished job names the file the engine was told to
    write, and that name is made of a fixed prefix, the fresh identifier
    and a fixed extension: it never contains anything of the request. *)
Theorem reply_names_output (parseFloatText : string → Js.number)
    (fs : Fs.t) (probed : option Routes.metadata) (fontFile : option string)
    (uuid : string) (q : Queue.state) (o : Routes.outcome) (j : Routes.jobFn) :
  (∃ body, o = Routes.postTrim parseFloatText fs uuid q body)
  ∨ (∃ body, o = Routes.postFilter fs uuid q body)
  ∨ (∃ body, o = Routes.postText fs fontFile uuid q body)
  ∨ (∃ body, o = Routes.postMerge fs uuid q body)
  ∨ (∃ body, o = Routes.postAudio parseFloatText fs probed uuid q body) →
  Routes.enqueued o = Some j →
  (∃ message,
     Routes.on_end j = Routes.Success (Routes.output (Routes.cmd j)) message) ∧
  Routes.output (Routes.cmd j)
  ∈ [ "trimmed_" +:+ uuid +:+ ".mp4"; "filtered_" +:+ uuid +:+ ".mp4";
      "text_" +:+ uuid +:+ ".mp4"; "merged_" +:+ uuid +:+ ".mp4";
      "audio_" +:+ uuid +:+ ".mp3"; "audio_" +:+ uuid +:+ ".mp4" ]%string.
Proof.
  intros [[body ->]|[[body ->]|[[body ->]|[[body ->]|[body ->]]]]].
  - unfold Routes.postTrim. repeat case_match; try done.
    intros [= <-]. cbn. split; [eauto|set_solver].
  - unfold Routes.postFilter. repeat case_match; try done;
      intros [= <-]; cbn; (split; [eauto|set_solver]).
  - unfold Routes.postText.
    destruct (negb _ || negb _); [done|].
    destruct (negb _); [done|].
    intros [= <-]. cbn. split; [eauto|set_solver].
  - unfold Routes.postMerge. repeat case_match; try done.
    intros [= <-]. cbn. split; [eauto|set_solver].
  - unfold Routes.postAudio. repeat case_match; try done;
      intros [= <-]; cbn; (split; [eauto|set_solver]).
Qed.

Lemma reply_names_output_witness :
  Routes.enqueued (Routes.postFilter demo_fs "u" Queue.init filter_blur)
  = Some {| Routes.cmd :=
              {| Routes.inputs := ["clip.mp4"%string];
                 Routes.inputOptions := [];
                 Routes.switches := [];
                 Routes.videoFilters := [[Js.Val (Js.Text "boxblur=5:1")];
                                         [Js.Lit "scale=480:-2"]];
                 Routes.audioFilters := [];
                 Routes.complexFilter := [];
                 Routes.outputOptions := Routes.FFMPEG_NO_SCALE_OPTS;
                 Routes.output := "filtered_u.mp4"%string |};
            Routes.on_end := Routes.Success "filtered_u.mp4"
                               "Filter 'blur' applied successfully";
            Routes.on_error := "Failed to apply filter"%string |} ∧
  ∃ message,
    Routes.Success "filtered_u.mp4" "Filter 'blur' applied successfully"
    = Routes.Success "filtered_u.mp4" message.
Proof.
  assert (Routes.enqueued (Routes.postFilter demo_fs "u" Queue.init filter_blur)
          = Some {| Routes.cmd :=
              {| Routes.inputs := ["clip.mp4"%string];
                 Routes.inputOptions := [];
                 Routes.switches := [];
                 Routes.videoFilters := [[Js.Val (Js.Text "boxblur=5:1")];
                                         [Js.Lit "scale=480:-2"]];
                 Routes.audioFilters := [];
                 Routes.complexFilter := [];
                 Routes.outputOptions := Routes.FFMPEG_NO_SCALE_OPTS;
                 Routes.output := "filtered_u.mp4"%string |};
            Routes.on_end := Routes.Success "filtered_u.mp4"
                               "Filter 'blur' applied successfully";
            Routes.on_error := "Failed to apply filter"%string |}) as H
    by (vm_compute; reflexivity).
  split; [exact H|].
  apply (reply_names_output no_text demo_fs None None "u" Queue.init _ _
           (or_intror (or_introl (ex_intro _ filter_blur eq_refl))) H).
Defined.
